(** * Certificate-chain compression codec (QUIC crypto handshake)

    A shallow embedding of
    [quiche/quic/core/crypto/cert_compressor.cc] and the properties of its
    encoder ([CompressChain]) and decoder ([DecompressChain]).

    Conventions of the embedding:
    - [std::string], [absl::string_view] and raw buffers are [list byte];
    - [size_t] is 64 bits wide, [uint32_t] and zlib's [uInt] 32 bits; every
      conversion and every addition of the source that can wrap is written
      with its modulus;
    - [memcpy] between an integer and a buffer is little-endian, as the
      source assumes of its host ("This assumes that the machine is
      little-endian");
    - an unchecked [operator[]] outside of the vector is undefined behaviour
      in the source; the embedding reads a default value there and leaves
      the vector as it is when storing, and its lemmas show that the indices
      of the codec stay inside;
    - zlib is an interface ([Zlib]): the codec is verified against every
      implementation of it. *)

From Stdlib Require Import ZArith List Lia.
From coqutil Require Import Byte Word.LittleEndianList.
From stdpp Require Import base option list.
Import ListNotations.
Local Open Scope Z_scope.

(** ** Bytes and machine integers *)

Abbreviation bytes := (list byte).

Definition to_uint32 (z : Z) : Z := z mod 2 ^ 32.
Definition to_uint64 (z : Z) : Z := z mod 2 ^ 64.
(** [size_t] of the 64-bit targets. *)
Definition to_size_t (z : Z) : Z := z mod 2 ^ 64.

(** [s.size()] *)
Definition size {A : Type} (s : list A) : Z := Z.of_nat (length s).

(** [memcpy(&v, s.data() + j, sizeof(uint64_t))] *)
Definition load_uint64 (s : bytes) (j : nat) : Z := le_combine (take 8 (drop j s)).
(** [memcpy(&v, s.data(), sizeof(uint32_t))] *)
Definition load_uint32 (s : bytes) : Z := le_combine (take 4 s).
(** [memcpy(out, &v, sizeof(uint64_t))] *)
Definition store_uint64 (v : Z) : bytes := le_split 8 v.
(** [memcpy(out, &v, sizeof(uint32_t))] *)
Definition store_uint32 (v : Z) : bytes := le_split 4 v.

(** ** The static dictionary *)

(** [kCommonCertSubstrings], byte for byte. *)
Definition kCommonCertSubstrings : bytes :=
  map byte.of_Z [
    0x04; 0x02; 0x30; 0x00; 0x30; 0x1d; 0x06; 0x03; 0x55; 0x1d; 0x25; 0x04;
    0x16; 0x30; 0x14; 0x06; 0x08; 0x2b; 0x06; 0x01; 0x05; 0x05; 0x07; 0x03;
    0x01; 0x06; 0x08; 0x2b; 0x06; 0x01; 0x05; 0x05; 0x07; 0x03; 0x02; 0x30;
    0x5f; 0x06; 0x09; 0x60; 0x86; 0x48; 0x01; 0x86; 0xf8; 0x42; 0x04; 0x01;
    0x06; 0x06; 0x0b; 0x60; 0x86; 0x48; 0x01; 0x86; 0xfd; 0x6d; 0x01; 0x07;
    0x17; 0x01; 0x30; 0x33; 0x20; 0x45; 0x78; 0x74; 0x65; 0x6e; 0x64; 0x65;
    0x64; 0x20; 0x56; 0x61; 0x6c; 0x69; 0x64; 0x61; 0x74; 0x69; 0x6f; 0x6e;
    0x20; 0x53; 0x20; 0x4c; 0x69; 0x6d; 0x69; 0x74; 0x65; 0x64; 0x31; 0x34;
    0x20; 0x53; 0x53; 0x4c; 0x20; 0x43; 0x41; 0x30; 0x1e; 0x17; 0x0d; 0x31;
    0x32; 0x20; 0x53; 0x65; 0x63; 0x75; 0x72; 0x65; 0x20; 0x53; 0x65; 0x72;
    0x76; 0x65; 0x72; 0x20; 0x43; 0x41; 0x30; 0x2d; 0x61; 0x69; 0x61; 0x2e;
    0x76; 0x65; 0x72; 0x69; 0x73; 0x69; 0x67; 0x6e; 0x2e; 0x63; 0x6f; 0x6d;
    0x2f; 0x45; 0x2d; 0x63; 0x72; 0x6c; 0x2e; 0x76; 0x65; 0x72; 0x69; 0x73;
    0x69; 0x67; 0x6e; 0x2e; 0x63; 0x6f; 0x6d; 0x2f; 0x45; 0x2e; 0x63; 0x65;
    0x72; 0x30; 0x0d; 0x06; 0x09; 0x2a; 0x86; 0x48; 0x86; 0xf7; 0x0d; 0x01;
    0x01; 0x05; 0x05; 0x00; 0x03; 0x82; 0x01; 0x01; 0x00; 0x4a; 0x2e; 0x63;
    0x6f; 0x6d; 0x2f; 0x72; 0x65; 0x73; 0x6f; 0x75; 0x72; 0x63; 0x65; 0x73;
    0x2f; 0x63; 0x70; 0x73; 0x20; 0x28; 0x63; 0x29; 0x30; 0x30; 0x09; 0x06;
    0x03; 0x55; 0x1d; 0x13; 0x04; 0x02; 0x30; 0x00; 0x30; 0x1d; 0x30; 0x0d;
    0x06; 0x09; 0x2a; 0x86; 0x48; 0x86; 0xf7; 0x0d; 0x01; 0x01; 0x05; 0x05;
    0x00; 0x03; 0x82; 0x01; 0x01; 0x00; 0x7b; 0x30; 0x1d; 0x06; 0x03; 0x55;
    0x1d; 0x0e; 0x30; 0x82; 0x01; 0x22; 0x30; 0x0d; 0x06; 0x09; 0x2a; 0x86;
    0x48; 0x86; 0xf7; 0x0d; 0x01; 0x01; 0x01; 0x05; 0x00; 0x03; 0x82; 0x01;
    0x0f; 0x00; 0x30; 0x82; 0x01; 0x0a; 0x02; 0x82; 0x01; 0x01; 0x00; 0xd2;
    0x6f; 0x64; 0x6f; 0x63; 0x61; 0x2e; 0x63; 0x6f; 0x6d; 0x2f; 0x43; 0x2e;
    0x63; 0x72; 0x6c; 0x30; 0x1d; 0x06; 0x03; 0x55; 0x1d; 0x0e; 0x04; 0x16;
    0x04; 0x14; 0xb4; 0x2e; 0x67; 0x6c; 0x6f; 0x62; 0x61; 0x6c; 0x73; 0x69;
    0x67; 0x6e; 0x2e; 0x63; 0x6f; 0x6d; 0x2f; 0x72; 0x30; 0x0b; 0x06; 0x03;
    0x55; 0x1d; 0x0f; 0x04; 0x04; 0x03; 0x02; 0x01; 0x30; 0x0d; 0x06; 0x09;
    0x2a; 0x86; 0x48; 0x86; 0xf7; 0x0d; 0x01; 0x01; 0x05; 0x05; 0x00; 0x30;
    0x81; 0xca; 0x31; 0x0b; 0x30; 0x09; 0x06; 0x03; 0x55; 0x04; 0x06; 0x13;
    0x02; 0x55; 0x53; 0x31; 0x10; 0x30; 0x0e; 0x06; 0x03; 0x55; 0x04; 0x08;
    0x13; 0x07; 0x41; 0x72; 0x69; 0x7a; 0x6f; 0x6e; 0x61; 0x31; 0x13; 0x30;
    0x11; 0x06; 0x03; 0x55; 0x04; 0x07; 0x13; 0x0a; 0x53; 0x63; 0x6f; 0x74;
    0x74; 0x73; 0x64; 0x61; 0x6c; 0x65; 0x31; 0x1a; 0x30; 0x18; 0x06; 0x03;
    0x55; 0x04; 0x0a; 0x13; 0x11; 0x47; 0x6f; 0x44; 0x61; 0x64; 0x64; 0x79;
    0x2e; 0x63; 0x6f; 0x6d; 0x2c; 0x20; 0x49; 0x6e; 0x63; 0x2e; 0x31; 0x33;
    0x30; 0x31; 0x06; 0x03; 0x55; 0x04; 0x0b; 0x13; 0x2a; 0x68; 0x74; 0x74;
    0x70; 0x3a; 0x2f; 0x2f; 0x63; 0x65; 0x72; 0x74; 0x69; 0x66; 0x69; 0x63;
    0x61; 0x74; 0x65; 0x73; 0x2e; 0x67; 0x6f; 0x64; 0x61; 0x64; 0x64; 0x79;
    0x2e; 0x63; 0x6f; 0x6d; 0x2f; 0x72; 0x65; 0x70; 0x6f; 0x73; 0x69; 0x74;
    0x6f; 0x72; 0x79; 0x31; 0x30; 0x30; 0x2e; 0x06; 0x03; 0x55; 0x04; 0x03;
    0x13; 0x27; 0x47; 0x6f; 0x20; 0x44; 0x61; 0x64; 0x64; 0x79; 0x20; 0x53;
    0x65; 0x63; 0x75; 0x72; 0x65; 0x20; 0x43; 0x65; 0x72; 0x74; 0x69; 0x66;
    0x69; 0x63; 0x61; 0x74; 0x69; 0x6f; 0x6e; 0x20; 0x41; 0x75; 0x74; 0x68;
    0x6f; 0x72; 0x69; 0x74; 0x79; 0x31; 0x11; 0x30; 0x0f; 0x06; 0x03; 0x55;
    0x04; 0x05; 0x13; 0x08; 0x30; 0x37; 0x39; 0x36; 0x39; 0x32; 0x38; 0x37;
    0x30; 0x1e; 0x17; 0x0d; 0x31; 0x31; 0x30; 0x0e; 0x06; 0x03; 0x55; 0x1d;
    0x0f; 0x01; 0x01; 0xff; 0x04; 0x04; 0x03; 0x02; 0x05; 0xa0; 0x30; 0x0c;
    0x06; 0x03; 0x55; 0x1d; 0x13; 0x01; 0x01; 0xff; 0x04; 0x02; 0x30; 0x00;
    0x30; 0x1d; 0x30; 0x0f; 0x06; 0x03; 0x55; 0x1d; 0x13; 0x01; 0x01; 0xff;
    0x04; 0x05; 0x30; 0x03; 0x01; 0x01; 0x00; 0x30; 0x1d; 0x06; 0x03; 0x55;
    0x1d; 0x25; 0x04; 0x16; 0x30; 0x14; 0x06; 0x08; 0x2b; 0x06; 0x01; 0x05;
    0x05; 0x07; 0x03; 0x01; 0x06; 0x08; 0x2b; 0x06; 0x01; 0x05; 0x05; 0x07;
    0x03; 0x02; 0x30; 0x0e; 0x06; 0x03; 0x55; 0x1d; 0x0f; 0x01; 0x01; 0xff;
    0x04; 0x04; 0x03; 0x02; 0x05; 0xa0; 0x30; 0x33; 0x06; 0x03; 0x55; 0x1d;
    0x1f; 0x04; 0x2c; 0x30; 0x2a; 0x30; 0x28; 0xa0; 0x26; 0xa0; 0x24; 0x86;
    0x22; 0x68; 0x74; 0x74; 0x70; 0x3a; 0x2f; 0x2f; 0x63; 0x72; 0x6c; 0x2e;
    0x67; 0x6f; 0x64; 0x61; 0x64; 0x64; 0x79; 0x2e; 0x63; 0x6f; 0x6d; 0x2f;
    0x67; 0x64; 0x73; 0x31; 0x2d; 0x32; 0x30; 0x2a; 0x30; 0x28; 0x06; 0x08;
    0x2b; 0x06; 0x01; 0x05; 0x05; 0x07; 0x02; 0x01; 0x16; 0x1c; 0x68; 0x74;
    0x74; 0x70; 0x73; 0x3a; 0x2f; 0x2f; 0x77; 0x77; 0x77; 0x2e; 0x76; 0x65;
    0x72; 0x69; 0x73; 0x69; 0x67; 0x6e; 0x2e; 0x63; 0x6f; 0x6d; 0x2f; 0x63;
    0x70; 0x73; 0x30; 0x34; 0x30; 0x30; 0x30; 0x30; 0x30; 0x30; 0x5a; 0x17;
    0x0d; 0x31; 0x33; 0x30; 0x35; 0x30; 0x39; 0x06; 0x08; 0x2b; 0x06; 0x01;
    0x05; 0x05; 0x07; 0x30; 0x02; 0x86; 0x2d; 0x68; 0x74; 0x74; 0x70; 0x3a;
    0x2f; 0x2f; 0x73; 0x30; 0x39; 0x30; 0x37; 0x06; 0x08; 0x2b; 0x06; 0x01;
    0x05; 0x05; 0x07; 0x02; 0x30; 0x44; 0x06; 0x03; 0x55; 0x1d; 0x20; 0x04;
    0x3d; 0x30; 0x3b; 0x30; 0x39; 0x06; 0x0b; 0x60; 0x86; 0x48; 0x01; 0x86;
    0xf8; 0x45; 0x01; 0x07; 0x17; 0x06; 0x31; 0x0b; 0x30; 0x09; 0x06; 0x03;
    0x55; 0x04; 0x06; 0x13; 0x02; 0x47; 0x42; 0x31; 0x1b; 0x53; 0x31; 0x17;
    0x30; 0x15; 0x06; 0x03; 0x55; 0x04; 0x0a; 0x13; 0x0e; 0x56; 0x65; 0x72;
    0x69; 0x53; 0x69; 0x67; 0x6e; 0x2c; 0x20; 0x49; 0x6e; 0x63; 0x2e; 0x31;
    0x1f; 0x30; 0x1d; 0x06; 0x03; 0x55; 0x04; 0x0b; 0x13; 0x16; 0x56; 0x65;
    0x72; 0x69; 0x53; 0x69; 0x67; 0x6e; 0x20; 0x54; 0x72; 0x75; 0x73; 0x74;
    0x20; 0x4e; 0x65; 0x74; 0x77; 0x6f; 0x72; 0x6b; 0x31; 0x3b; 0x30; 0x39;
    0x06; 0x03; 0x55; 0x04; 0x0b; 0x13; 0x32; 0x54; 0x65; 0x72; 0x6d; 0x73;
    0x20; 0x6f; 0x66; 0x20; 0x75; 0x73; 0x65; 0x20; 0x61; 0x74; 0x20; 0x68;
    0x74; 0x74; 0x70; 0x73; 0x3a; 0x2f; 0x2f; 0x77; 0x77; 0x77; 0x2e; 0x76;
    0x65; 0x72; 0x69; 0x73; 0x69; 0x67; 0x6e; 0x2e; 0x63; 0x6f; 0x6d; 0x2f;
    0x72; 0x70; 0x61; 0x20; 0x28; 0x63; 0x29; 0x30; 0x31; 0x10; 0x30; 0x0e;
    0x06; 0x03; 0x55; 0x04; 0x07; 0x13; 0x07; 0x53; 0x31; 0x13; 0x30; 0x11;
    0x06; 0x03; 0x55; 0x04; 0x0b; 0x13; 0x0a; 0x47; 0x31; 0x13; 0x30; 0x11;
    0x06; 0x0b; 0x2b; 0x06; 0x01; 0x04; 0x01; 0x82; 0x37; 0x3c; 0x02; 0x01;
    0x03; 0x13; 0x02; 0x55; 0x31; 0x16; 0x30; 0x14; 0x06; 0x03; 0x55; 0x04;
    0x03; 0x14; 0x31; 0x19; 0x30; 0x17; 0x06; 0x03; 0x55; 0x04; 0x03; 0x13;
    0x31; 0x1d; 0x30; 0x1b; 0x06; 0x03; 0x55; 0x04; 0x0f; 0x13; 0x14; 0x50;
    0x72; 0x69; 0x76; 0x61; 0x74; 0x65; 0x20; 0x4f; 0x72; 0x67; 0x61; 0x6e;
    0x69; 0x7a; 0x61; 0x74; 0x69; 0x6f; 0x6e; 0x31; 0x12; 0x31; 0x21; 0x30;
    0x1f; 0x06; 0x03; 0x55; 0x04; 0x0b; 0x13; 0x18; 0x44; 0x6f; 0x6d; 0x61;
    0x69; 0x6e; 0x20; 0x43; 0x6f; 0x6e; 0x74; 0x72; 0x6f; 0x6c; 0x20; 0x56;
    0x61; 0x6c; 0x69; 0x64; 0x61; 0x74; 0x65; 0x64; 0x31; 0x14; 0x31; 0x31;
    0x30; 0x2f; 0x06; 0x03; 0x55; 0x04; 0x0b; 0x13; 0x28; 0x53; 0x65; 0x65;
    0x20; 0x77; 0x77; 0x77; 0x2e; 0x72; 0x3a; 0x2f; 0x2f; 0x73; 0x65; 0x63;
    0x75; 0x72; 0x65; 0x2e; 0x67; 0x47; 0x6c; 0x6f; 0x62; 0x61; 0x6c; 0x53;
    0x69; 0x67; 0x6e; 0x31; 0x53; 0x65; 0x72; 0x76; 0x65; 0x72; 0x43; 0x41;
    0x2e; 0x63; 0x72; 0x6c; 0x56; 0x65; 0x72; 0x69; 0x53; 0x69; 0x67; 0x6e;
    0x20; 0x43; 0x6c; 0x61; 0x73; 0x73; 0x20; 0x33; 0x20; 0x45; 0x63; 0x72;
    0x6c; 0x2e; 0x67; 0x65; 0x6f; 0x74; 0x72; 0x75; 0x73; 0x74; 0x2e; 0x63;
    0x6f; 0x6d; 0x2f; 0x63; 0x72; 0x6c; 0x73; 0x2f; 0x73; 0x64; 0x31; 0x1a;
    0x30; 0x18; 0x06; 0x03; 0x55; 0x04; 0x0a; 0x68; 0x74; 0x74; 0x70; 0x3a;
    0x2f; 0x2f; 0x45; 0x56; 0x49; 0x6e; 0x74; 0x6c; 0x2d; 0x63; 0x63; 0x72;
    0x74; 0x2e; 0x67; 0x77; 0x77; 0x77; 0x2e; 0x67; 0x69; 0x63; 0x65; 0x72;
    0x74; 0x2e; 0x63; 0x6f; 0x6d; 0x2f; 0x31; 0x6f; 0x63; 0x73; 0x70; 0x2e;
    0x76; 0x65; 0x72; 0x69; 0x73; 0x69; 0x67; 0x6e; 0x2e; 0x63; 0x6f; 0x6d;
    0x30; 0x39; 0x72; 0x61; 0x70; 0x69; 0x64; 0x73; 0x73; 0x6c; 0x2e; 0x63;
    0x6f; 0x73; 0x2e; 0x67; 0x6f; 0x64; 0x61; 0x64; 0x64; 0x79; 0x2e; 0x63;
    0x6f; 0x6d; 0x2f; 0x72; 0x65; 0x70; 0x6f; 0x73; 0x69; 0x74; 0x6f; 0x72;
    0x79; 0x2f; 0x30; 0x81; 0x80; 0x06; 0x08; 0x2b; 0x06; 0x01; 0x05; 0x05;
    0x07; 0x01; 0x01; 0x04; 0x74; 0x30; 0x72; 0x30; 0x24; 0x06; 0x08; 0x2b;
    0x06; 0x01; 0x05; 0x05; 0x07; 0x30; 0x01; 0x86; 0x18; 0x68; 0x74; 0x74;
    0x70; 0x3a; 0x2f; 0x2f; 0x6f; 0x63; 0x73; 0x70; 0x2e; 0x67; 0x6f; 0x64;
    0x61; 0x64; 0x64; 0x79; 0x2e; 0x63; 0x6f; 0x6d; 0x2f; 0x30; 0x4a; 0x06;
    0x08; 0x2b; 0x06; 0x01; 0x05; 0x05; 0x07; 0x30; 0x02; 0x86; 0x3e; 0x68;
    0x74; 0x74; 0x70; 0x3a; 0x2f; 0x2f; 0x63; 0x65; 0x72; 0x74; 0x69; 0x66;
    0x69; 0x63; 0x61; 0x74; 0x65; 0x73; 0x2e; 0x67; 0x6f; 0x64; 0x61; 0x64;
    0x64; 0x79; 0x2e; 0x63; 0x6f; 0x6d; 0x2f; 0x72; 0x65; 0x70; 0x6f; 0x73;
    0x69; 0x74; 0x6f; 0x72; 0x79; 0x2f; 0x67; 0x64; 0x5f; 0x69; 0x6e; 0x74;
    0x65; 0x72; 0x6d; 0x65; 0x64; 0x69; 0x61; 0x74; 0x65; 0x2e; 0x63; 0x72;
    0x74; 0x30; 0x1f; 0x06; 0x03; 0x55; 0x1d; 0x23; 0x04; 0x18; 0x30; 0x16;
    0x80; 0x14; 0xfd; 0xac; 0x61; 0x32; 0x93; 0x6c; 0x45; 0xd6; 0xe2; 0xee;
    0x85; 0x5f; 0x9a; 0xba; 0xe7; 0x76; 0x99; 0x68; 0xcc; 0xe7; 0x30; 0x27;
    0x86; 0x29; 0x68; 0x74; 0x74; 0x70; 0x3a; 0x2f; 0x2f; 0x63; 0x86; 0x30;
    0x68; 0x74; 0x74; 0x70; 0x3a; 0x2f; 0x2f; 0x73
  ].

(** ** The content hash *)

(** The offset basis and the prime of 64-bit FNV. *)
Definition kOffset : Z := 14695981039346656037.
Definition kPrime : Z := 1099511628211.

(** Modelled from the spec: [QuicUtils::FNV1a_64_Hash] is defined in
    quic_utils.cc, which is not among the sources at hand; the specification
    calls it "a 64-bit FNV-1a hash of raw certificate bytes".  This is FNV-1a:
    from the offset basis, every octet is xored in and the hash multiplied by
    the prime, modulo [2 ^ 64]. *)
Definition FNV1a_64_Hash (data : bytes) : Z :=
  fold_left (fun hash octet => to_uint64 (Z.lxor hash (byte.unsigned octet) * kPrime))
            data kOffset.

(** ** Entries *)

(** [struct CertEntry].  The field [hash] is written and read for [CACHED]
    entries only and is left uninitialised otherwise, so it lives under the
    [CACHED] constructor; [set_hash] and [index] are never accessed. *)
Inductive CertEntry : Type :=
  | COMPRESSED
  | CACHED (hash : Z).

(** [static_cast<uint8_t>(i->type)] *)
Definition wire_type (e : CertEntry) : byte :=
  match e with
  | COMPRESSED => byte.of_Z 1
  | CACHED _ => byte.of_Z 2
  end.

Definition is_compressed (e : CertEntry) : bool :=
  match e with
  | COMPRESSED => true
  | CACHED _ => false
  end.

(** ** MatchCerts *)

(** The inner loop of [MatchCerts]:
    [for (j = 0; j < hashes.size(); j += sizeof(uint64_t))], which leaves
    with [true] at the first advertised hash equal to [hash].  [fuel] bounds
    the number of iterations; [length hashes] is always enough. *)
Fixpoint hash_scan (fuel : nat) (hash : Z) (hashes : bytes) (j : nat) : bool :=
  match fuel with
  | O => false
  | S fuel' =>
      if (j <? length hashes)%nat then
        if hash =? load_uint64 hashes j then true
        else hash_scan fuel' hash hashes (j + 8)
      else false
  end.

(** One iteration of the outer loop: the entry pushed for [cert]. *)
Definition match_cert (cached_valid : bool) (hashes : bytes) (cert : bytes) : CertEntry :=
  if cached_valid then
    let hash := FNV1a_64_Hash cert in
    if hash_scan (length hashes) hash hashes 0 then CACHED hash else COMPRESSED
  else COMPRESSED.

(** The outer loop, [entries] being the vector pushed to. *)
Fixpoint MatchCerts_loop (cached_valid : bool) (hashes : bytes)
    (certs : list bytes) (entries : list CertEntry) : list CertEntry :=
  match certs with
  | [] => entries
  | cert :: certs' =>
      MatchCerts_loop cached_valid hashes certs'
        (entries ++ [match_cert cached_valid hashes cert])
  end.

Definition MatchCerts (certs : list bytes) (client_cached_cert_hashes : bytes)
    : list CertEntry :=
  let cached_valid :=
    (size client_cached_cert_hashes mod 8 =? 0)
    && negb (size client_cached_cert_hashes =? 0) in
  MatchCerts_loop cached_valid client_cached_cert_hashes certs [].

(** ** Frame writer *)

(** [CertEntriesSize]: plain [size_t] arithmetic ([entries_size++],
    [entries_size += sizeof(uint64_t)]). *)
Fixpoint CertEntriesSize_loop (entries : list CertEntry) (entries_size : Z) : Z :=
  match entries with
  | [] => entries_size
  | e :: entries' =>
      let entries_size := to_size_t (entries_size + 1) in
      CertEntriesSize_loop entries'
        match e with
        | COMPRESSED => entries_size
        | CACHED _ => to_size_t (entries_size + 8)
        end
  end.

Definition CertEntriesSize (entries : list CertEntry) : Z :=
  to_size_t (CertEntriesSize_loop entries 0 + 1).

(** [SerializeCertEntries]: the bytes stored through [out], in order. *)
Fixpoint SerializeCertEntries (entries : list CertEntry) : bytes :=
  match entries with
  | [] => [byte.of_Z 0]
  | e :: entries' =>
      wire_type e ::
      match e with
      | COMPRESSED => []
      | CACHED hash => store_uint64 hash
      end ++ SerializeCertEntries entries'
  end.

(** ** Dictionary builder *)

Global Instance CertEntry_inhabited : Inhabited CertEntry := populate COMPRESSED.

(** The loop [for (size_t i = certs.size() - 1; i < certs.size(); i--)] of
    [ZlibDictForEntries], with [n = i + 1]: it visits [n - 1], ..., [0] and ends
    when [i--] wraps around.  [entries[i]] is unchecked in the source; its
    callers pass vectors of equal length. *)
Fixpoint ZlibDict_loop (n : nat) (entries : list CertEntry) (certs : list bytes)
    (zlib_dict : bytes) : bytes :=
  match n with
  | O => zlib_dict
  | S i =>
      ZlibDict_loop i entries certs
        (if negb (is_compressed (entries !!! i)) then zlib_dict ++ certs !!! i
         else zlib_dict)
  end.

(** [ZlibDictForEntries].  The first loop of the source only adds up
    [zlib_dict_size] for [reserve]. *)
Definition ZlibDictForEntries (entries : list CertEntry) (certs : list bytes) : bytes :=
  ZlibDict_loop (length certs) entries certs [] ++ kCommonCertSubstrings.

(** ** Frame reader *)

Definition HashCerts (certs : list bytes) : list Z := map FNV1a_64_Hash certs.

(** What a decode call does besides computing its result. *)
Inductive Event : Type :=
  | EvHashCerts
  | EvAlloc (n : Z)
  | EvInflateInit
  | EvInflate
  | EvInflateSetDictionary.

(** [for (size_t i = 0; i < cached_hashes.size(); i++)]: the index of the
    first hash equal to [entry_hash], [rest] being [cached_hashes] from [i]. *)
Fixpoint find_hash (entry_hash : Z) (rest : list Z) (i : nat) : option nat :=
  match rest with
  | [] => None
  | h :: rest' =>
      if h =? entry_hash then Some i else find_hash entry_hash rest' (S i)
  end.

Record ParseResult : Type := mkParseResult {
  p_ok : bool;                   (* the value returned *)
  p_in : bytes;                  (* [*in_out] *)
  p_entries : list CertEntry;    (* [*out_entries] *)
  p_certs : list bytes;          (* [*out_certs] *)
  p_events : list Event
}.

(** The loop [for (;;)] of [ParseEntries].  Every iteration removes a byte of
    [in_], so [S (length in_)] iterations are enough. *)
Fixpoint ParseEntries_loop (fuel : nat) (cached_certs : list bytes)
    (in_0 in_ : bytes) (cached_hashes : list Z)
    (out_entries : list CertEntry) (out_certs : list bytes) (events : list Event)
    : ParseResult :=
  let fail_ := mkParseResult false in_0 out_entries out_certs in
  match fuel with
  | O => fail_ events
  | S fuel' =>
      match in_ with
      | [] => fail_ events
      | type_byte :: in_ =>
          if byte.unsigned type_byte =? 0 then
            mkParseResult true in_ out_entries out_certs events
          else if byte.unsigned type_byte =? 1 then
            ParseEntries_loop fuel' cached_certs in_0 in_ cached_hashes
              (out_entries ++ [COMPRESSED]) (out_certs ++ [[]]) events
          else if byte.unsigned type_byte =? 2 then
            if size in_ <? 8 then fail_ events
            else
              let hash := load_uint64 in_ 0 in
              let in_ := drop 8 in_ in
              let rehash := negb (size cached_hashes =? size cached_certs) in
              let cached_hashes :=
                if rehash then HashCerts cached_certs else cached_hashes in
              let events := if rehash then events ++ [EvHashCerts] else events in
              match find_hash hash cached_hashes 0 with
              | Some i =>
                  ParseEntries_loop fuel' cached_certs in_0 in_ cached_hashes
                    (out_entries ++ [CACHED hash])
                    (out_certs ++ [cached_certs !!! i]) events
              | None => fail_ events
              end
          else fail_ events
      end
  end.

(** [ParseEntries]: both output vectors are cleared first. *)
Definition ParseEntries (in_out : bytes) (cached_certs : list bytes)
    (out_entries : list CertEntry) (out_certs : list bytes) : ParseResult :=
  ParseEntries_loop (S (length in_out)) cached_certs in_out in_out [] [] [] [].

(** ** The compression primitive *)

(** Modelled from the spec: the return values and flush modes of zlib.h,
    which is not among the sources at hand; the codec only compares them. *)
Definition Z_OK : Z := 0.
Definition Z_STREAM_END : Z := 1.
Definition Z_NEED_DICT : Z := 2.
Definition Z_STREAM_ERROR : Z := -2.
Definition Z_DATA_ERROR : Z := -3.
Definition Z_BUF_ERROR : Z := -5.
Definition Z_NO_FLUSH : Z := 0.
Definition Z_FINISH : Z := 4.
Definition Z_DEFAULT_COMPRESSION : Z := -1.

(** zlib as the codec calls it.  [deflate s input avail_out flush] and
    [inflate s input avail_out flush] are given the [avail_in] bytes at
    [next_in] and the room at [next_out]; they answer with the return value,
    the number of bytes taken from the input, the bytes stored at [next_out]
    and the new internal state. *)
Class Zlib : Type := {
  deflate_state : Type;
  inflate_state : Type;
  deflateInit : Z -> Z * deflate_state;
  deflateSetDictionary : deflate_state -> bytes -> Z * deflate_state;
  deflateBound : deflate_state -> Z -> Z;
  deflate : deflate_state -> bytes -> Z -> Z -> Z * nat * bytes * deflate_state;
  inflateInit : Z * inflate_state;
  inflateSetDictionary : inflate_state -> bytes -> Z * inflate_state;
  inflate : inflate_state -> bytes -> Z -> Z -> Z * nat * bytes * inflate_state
}.

(** [z_stream]: [next_in] is the memory from the input pointer on, [written]
    what has been stored from the first [next_out] on. *)
Record z_stream (S : Type) : Type := mk_z_stream {
  next_in : bytes;
  avail_in : Z;
  written : bytes;
  avail_out : Z;
  state : S
}.
Arguments mk_z_stream {S} _ _ _ _ _.
Arguments next_in {S} _.
Arguments avail_in {S} _.
Arguments written {S} _.
Arguments avail_out {S} _.
Arguments state {S} _.

(** How a call moves the four public fields of the stream. *)
Definition z_advance {S : Type} (z : z_stream S) (r : Z * nat * bytes * S)
    : Z * z_stream S :=
  let '(rv, consumed, produced, s) := r in
  (rv, mk_z_stream (drop consumed (next_in z)) (avail_in z - Z.of_nat consumed)
         (written z ++ produced) (avail_out z - size produced) s).

(** [std::string::resize(n)] *)
Definition resize (n : Z) (s : bytes) : bytes :=
  take (Z.to_nat n) s ++ repeat (byte.of_Z 0) (Z.to_nat n - length s).

(** Storing [data] at offset [off] of the buffer [buf], which is large
    enough in the source. *)
Definition write_at (buf : bytes) (off : Z) (data : bytes) : bytes :=
  take (Z.to_nat off) buf ++ data ++ drop (Z.to_nat off + length data) buf.

Record DecodeResult : Type := mkDecodeResult {
  ok : bool;                  (* the value returned *)
  certs_out : list bytes;     (* [*out_certs] when the call returns *)
  events : list Event
}.

(** The last loop of [DecompressChain]; [entries] is the part of the vector
    from index [i] on. *)
Fixpoint fill_certs (entries : list CertEntry) (i : nat) (uncompressed : bytes)
    (out_certs : list bytes) : bool * bytes * list bytes :=
  match entries with
  | [] => (true, uncompressed, out_certs)
  | COMPRESSED :: entries' =>
      if size uncompressed <? 4 then (false, uncompressed, out_certs)
      else
        let cert_len := load_uint32 uncompressed in
        let uncompressed := drop 4 uncompressed in
        if size uncompressed <? cert_len then (false, uncompressed, out_certs)
        else
          fill_certs entries' (S i) (drop (Z.to_nat cert_len) uncompressed)
            (<[i := take (Z.to_nat cert_len) uncompressed]> out_certs)
  | CACHED _ :: entries' => fill_certs entries' (S i) uncompressed out_certs
  end.

(** The loop of [CompressChain] that adds up [uncompressed_size]; [entries]
    is the part of the vector from index [i] on. *)
Fixpoint uncompressed_size_loop (entries : list CertEntry) (i : nat)
    (certs : list bytes) (uncompressed_size : Z) : Z :=
  match entries with
  | [] => uncompressed_size
  | e :: entries' =>
      uncompressed_size_loop entries' (S i) certs
        (if is_compressed e
         then to_size_t (uncompressed_size + to_size_t (4 + size (certs !!! i)))
         else uncompressed_size)
  end.

Section Codec.

Context {zlib : Zlib}.

Definition call_deflate (z : z_stream deflate_state) (flush : Z)
    : Z * z_stream deflate_state :=
  z_advance z
    (deflate (state z) (take (Z.to_nat (avail_in z)) (next_in z)) (avail_out z) flush).

Definition call_inflate (z : z_stream inflate_state) (flush : Z)
    : Z * z_stream inflate_state :=
  z_advance z
    (inflate (state z) (take (Z.to_nat (avail_in z)) (next_in z)) (avail_out z) flush).

(** [z.next_in = data; z.avail_in = n; rv = deflate(&z, Z_NO_FLUSH);] and
    the test that follows it: [None] where the source returns [""]. *)
Definition deflate_input (z : z_stream deflate_state) (data : bytes) (n : Z)
    : option (z_stream deflate_state) :=
  let z := mk_z_stream data n (written z) (avail_out z) (state z) in
  let '(rv, z) := call_deflate z Z_NO_FLUSH in
  if negb (rv =? Z_OK) || negb (avail_in z =? 0) then None else Some z.

(** The loop of [CompressChain] that feeds the certificates to deflate;
    [certs] is the part of the vector from index [i] on. *)
Fixpoint deflate_certs (entries : list CertEntry) (i : nat) (certs : list bytes)
    (z : z_stream deflate_state) : option (z_stream deflate_state) :=
  match certs with
  | [] => Some z
  | cert :: certs' =>
      if negb (is_compressed (entries !!! i)) then
        deflate_certs entries (S i) certs' z
      else
        let length32 := to_uint32 (size cert) in
        z ← deflate_input z (store_uint32 length32) 4;
        z ← deflate_input z cert (to_uint32 (size cert));
        deflate_certs entries (S i) certs' z
  end.

(** [CertCompressor::CompressChain].  The source tests
    [uncompressed_size > 0] three times; the three tests are one here. *)
Definition CompressChain (certs : list bytes) (client_cached_cert_hashes : bytes)
    : bytes :=
  let entries := MatchCerts certs client_cached_cert_hashes in
  let uncompressed_size := uncompressed_size_loop entries 0 certs 0 in
  let entries_size := CertEntriesSize entries in
  if uncompressed_size =? 0 then
    write_at (resize entries_size []) 0 (SerializeCertEntries entries)
  else
    let '(rv, s) := deflateInit Z_DEFAULT_COMPRESSION in
    if negb (rv =? Z_OK) then []
    else
      let zlib_dict := ZlibDictForEntries entries certs in
      let '(rv, s) := deflateSetDictionary s zlib_dict in
      if negb (rv =? Z_OK) then []
      else
        let compressed_size := deflateBound s uncompressed_size in
        let result := resize (to_size_t (entries_size + 4 + compressed_size)) [] in
        let result := write_at result 0 (SerializeCertEntries entries) in
        let uncompressed_size_32 := to_uint32 uncompressed_size in
        let result := write_at result entries_size (store_uint32 uncompressed_size_32) in
        let j := entries_size + 4 in
        let z := mk_z_stream [] 0 [] (to_uint32 compressed_size) s in
        match deflate_certs entries 0 certs z with
        | None => []
        | Some z =>
            let z := mk_z_stream (next_in z) 0 (written z) (avail_out z) (state z) in
            let '(rv, z) := call_deflate z Z_FINISH in
            if negb (rv =? Z_STREAM_END) then []
            else
              let result := write_at result j (written z) in
              resize (to_size_t (size result - avail_out z)) result
        end.

(** The zlib calls of [DecompressChain], from [inflateInit] to the last
    [inflate]: the last return value and the stream, or [None] where the
    source returns [false] in between, and the calls made. *)
Definition run_inflate (in_ : bytes) (uncompressed_size : Z)
    (entries : list CertEntry) (out_certs : list bytes)
    : option (Z * z_stream inflate_state) * list Event :=
  let '(rv, s) := inflateInit in
  if negb (rv =? Z_OK) then (None, [EvInflateInit])
  else
    let z := mk_z_stream in_ (to_uint32 (size in_)) [] uncompressed_size s in
    let '(rv, z) := call_inflate z Z_FINISH in
    if rv =? Z_NEED_DICT then
      let zlib_dict := ZlibDictForEntries entries out_certs in
      let '(rv, s) := inflateSetDictionary (state z) zlib_dict in
      if negb (rv =? Z_OK)
      then (None, [EvInflateInit; EvInflate; EvInflateSetDictionary])
      else
        let z := mk_z_stream (next_in z) (avail_in z) (written z) (avail_out z) s in
        let '(rv, z) := call_inflate z Z_FINISH in
        (Some (rv, z), [EvInflateInit; EvInflate; EvInflateSetDictionary; EvInflate])
    else (Some (rv, z), [EvInflateInit; EvInflate]).

(** The block [if (!in.empty()) { ... }] of [DecompressChain]: the inflated
    payload, or [None] where the source returns [false], and the events of
    the block.  ([avail_out] and [avail_in] are unsigned: [> 0] is
    [!= 0].) *)
Definition inflate_block (in_ : bytes) (entries : list CertEntry)
    (out_certs : list bytes) : option bytes * list Event :=
  if size in_ <? 4 then (None, [])
  else
    let uncompressed_size := load_uint32 in_ in
    let in_ := drop 4 in_ in
    if 128 * 1024 <? uncompressed_size then (None, [])
    else
      let uncompressed_data := repeat (byte.of_Z 0) (Z.to_nat uncompressed_size) in
      match run_inflate in_ uncompressed_size entries out_certs with
      | (None, events) => (None, EvAlloc uncompressed_size :: events)
      | (Some (rv, z), events) =>
          if negb (rv =? Z_STREAM_END) || negb (avail_out z =? 0)
             || negb (avail_in z =? 0)
          then (None, EvAlloc uncompressed_size :: events)
          else (Some (write_at uncompressed_data 0 (written z)),
                EvAlloc uncompressed_size :: events)
      end.

(** [CertCompressor::DecompressChain]; [out_certs] is the vector of the
    caller as it is when the call is made. *)
Definition DecompressChain (in_ : bytes) (cached_certs : list bytes)
    (out_certs : list bytes) : DecodeResult :=
  let p := ParseEntries in_ cached_certs [] out_certs in
  if negb (p_ok p) then mkDecodeResult false (p_certs p) (p_events p)
  else
    let entries := p_entries p in
    let out_certs := p_certs p in
    let in_ := p_in p in
    let '(uncompressed, events) :=
      if negb (size in_ =? 0) then inflate_block in_ entries out_certs
      else (Some [], []) in
    let events := p_events p ++ events in
    match uncompressed with
    | None => mkDecodeResult false out_certs events
    | Some uncompressed =>
        let '(filled, uncompressed, out_certs) :=
          fill_certs entries 0 uncompressed out_certs in
        if negb filled then mkDecodeResult false out_certs events
        else if negb (size uncompressed =? 0) then mkDecodeResult false out_certs events
        else mkDecodeResult true out_certs events
    end.

End Codec.

(** ** What the codec expects of zlib *)

Section ZlibLaw.

Context {zlib : Zlib}.


(** A whole inflate session on [stream] with room for [n] bytes: zlib asks
    for the dictionary before it stores anything, is given [dict], and ends
    the stream having taken all its input and stored the [n] bytes [data]. *)
Definition inflate_session_yields (stream : bytes) (n : Z) (dict data : bytes)
    : Prop :=
  exists s0 c1 s1 s2 c2 s3,
    inflateInit = (Z_OK, s0) /\
    inflate s0 stream n Z_FINISH = (Z_NEED_DICT, c1, [], s1) /\
    inflateSetDictionary s1 dict = (Z_OK, s2) /\
    inflate s2 (drop c1 stream) n Z_FINISH = (Z_STREAM_END, c2, data, s3) /\
    (c1 + c2)%nat = length stream /\
    size data = n.


End ZlibLaw.

(** ** A reference implementation of the interface

    A codec that stores its input: the stream is a header (a byte telling
    whether a dictionary was preset, then the hash of the dictionary), the
    length of the data and the data.  It follows the signals of zlib.h:
    [Z_BUF_ERROR] when no progress is possible, [Z_NEED_DICT] once the header
    of a stream with a preset dictionary is read, [Z_DATA_ERROR] for another
    dictionary than the one of the stream. *)
Module StoredZlib.

Record dstate : Type := mk_dstate {
  d_dict : option bytes;
  d_buffered : bytes
}.

Inductive istate : Type :=
  | i_header
  | i_need_dict (id : Z)
  | i_body
  | i_end.

Definition header (dict : option bytes) : bytes :=
  match dict with
  | None => [byte.of_Z 0]
  | Some d => byte.of_Z 1 :: store_uint64 (FNV1a_64_Hash d)
  end.

Definition stored_deflate (s : dstate) (input : bytes) (avail_out flush : Z)
    : Z * nat * bytes * dstate :=
  if avail_out <=? 0 then (Z_BUF_ERROR, O, [], s)
  else if flush =? Z_FINISH then
    let data := d_buffered s ++ input in
    let stream := header (d_dict s) ++ store_uint32 (size data) ++ data in
    if size stream <=? avail_out
    then (Z_STREAM_END, length input, stream, mk_dstate (d_dict s) [])
    else (Z_BUF_ERROR, O, [], s)
  else if size input =? 0 then (Z_BUF_ERROR, O, [], s)
  else (Z_OK, length input, [], mk_dstate (d_dict s) (d_buffered s ++ input)).

Definition body (input : bytes) (skipped : nat) (avail_out : Z) (s : istate)
    : Z * nat * bytes * istate :=
  if size input <? 4 then (Z_BUF_ERROR, O, [], s)
  else
    let n := load_uint32 input in
    if (size (drop 4 input) <? n) || (avail_out <? n) then (Z_BUF_ERROR, O, [], s)
    else (Z_STREAM_END, (skipped + 4 + Z.to_nat n)%nat,
          take (Z.to_nat n) (drop 4 input), i_end).

Definition stored_inflate (s : istate) (input : bytes) (avail_out flush : Z)
    : Z * nat * bytes * istate :=
  match s with
  | i_header =>
      match input with
      | [] => (Z_BUF_ERROR, O, [], s)
      | b :: rest =>
          if byte.unsigned b =? 0 then body rest 1 avail_out s
          else if byte.unsigned b =? 1 then
            if size rest <? 8 then (Z_BUF_ERROR, O, [], s)
            else (Z_NEED_DICT, 9%nat, [], i_need_dict (load_uint64 rest 0))
          else (Z_DATA_ERROR, O, [], s)
      end
  | i_need_dict _ => (Z_NEED_DICT, O, [], s)
  | i_body => body input 0 avail_out s
  | i_end => (Z_STREAM_END, O, [], s)
  end.

Definition stored_inflateSetDictionary (s : istate) (dict : bytes) : Z * istate :=
  match s with
  | i_need_dict id =>
      if FNV1a_64_Hash dict =? id then (Z_OK, i_body) else (Z_DATA_ERROR, s)
  | _ => (Z_STREAM_ERROR, s)
  end.

Definition impl : Zlib := {|
  deflate_state := dstate;
  inflate_state := istate;
  deflateInit := fun _ => (Z_OK, mk_dstate None []);
  deflateSetDictionary := fun s dict => (Z_OK, mk_dstate (Some dict) (d_buffered s));
  deflateBound := fun _ n => n + 13;
  deflate := stored_deflate;
  inflateInit := (Z_OK, i_header);
  inflateSetDictionary := stored_inflateSetDictionary;
  inflate := stored_inflate
|}.

End StoredZlib.


(** ** Notions of the specification *)

(** [h] is one of the 8-byte values of the advertised sequence [hashes]. *)
Definition advertised (hashes : bytes) (h : Z) : Prop :=
  exists k : nat, (8 * k < length hashes)%nat /\ load_uint64 hashes (8 * k) = h.

(** The certificates of the entries that are not [COMPRESSED], in the order
    of the chain. *)
Fixpoint cached_certs_of (entries : list CertEntry) (certs : list bytes)
    : list bytes :=
  match entries, certs with
  | e :: entries', cert :: certs' =>
      if is_compressed e then cached_certs_of entries' certs'
      else cert :: cached_certs_of entries' certs'
  | _, _ => []
  end.

(** The size of the serialised entries as the specification counts it: one
    byte per entry, eight more per [CACHED] entry, one for the end marker. *)
Fixpoint serialized_size (entries : list CertEntry) : Z :=
  match entries with
  | [] => 1
  | COMPRESSED :: entries' => 1 + serialized_size entries'
  | CACHED _ :: entries' => 9 + serialized_size entries'
  end.


(** [sizeof(CertEntry)]: an enum and a [uint32_t] around two [uint64_t]. *)
Definition sizeof_CertEntry : Z := 32.

(** [cert] is, at index [k], the first certificate of [cached_certs] whose
    hash is [hash]. *)
Definition first_with_hash (cached_certs : list bytes) (hash : Z) (k : nat)
    (cert : bytes) : Prop :=
  cached_certs !! k = Some cert /\ FNV1a_64_Hash cert = hash /\
  forall (j : nat) (c : bytes),
    (j < k)%nat -> cached_certs !! j = Some c -> FNV1a_64_Hash c <> hash.

(** Some certificate of [cached_certs] has the hash [hash]. *)
Definition resolves (cached_certs : list bytes) (hash : Z) : Prop :=
  exists cert : bytes, In cert cached_certs /\ FNV1a_64_Hash cert = hash.

(** A well-formed entry list at the head of the input: the entries, the slot
    each of them opens in the certificate list, and the input after the end
    marker. *)
Inductive parsed (cached_certs : list bytes)
    : bytes -> list CertEntry -> list bytes -> bytes -> Prop :=
  | parsed_end (b : byte) (rest : bytes) :
      byte.unsigned b = 0 ->
      parsed cached_certs (b :: rest) [] [] rest
  | parsed_compressed (b : byte) (in_ : bytes) entries certs rest :
      byte.unsigned b = 1 ->
      parsed cached_certs in_ entries certs rest ->
      parsed cached_certs (b :: in_) (COMPRESSED :: entries) ([] :: certs) rest
  | parsed_cached (b : byte) (in_ : bytes) (k : nat) (cert : bytes) entries certs rest :
      byte.unsigned b = 2 ->
      8 <= size in_ ->
      first_with_hash cached_certs (load_uint64 in_ 0) k cert ->
      parsed cached_certs (drop 8 in_) entries certs rest ->
      parsed cached_certs (b :: in_)
        (CACHED (load_uint64 in_ 0) :: entries) (cert :: certs) rest.

(** A malformed entry list at the head of the input: the input ends before
    an end marker, a type byte is none of 0, 1, 2, fewer than 8 bytes follow
    a type byte 2, or the hash after a type byte 2 is the hash of no
    certificate of the local cache. *)
Inductive malformed (cached_certs : list bytes) : bytes -> Prop :=
  | malformed_no_end_marker :
      malformed cached_certs []
  | malformed_type_byte (b : byte) (in_ : bytes) :
      byte.unsigned b <> 0 -> byte.unsigned b <> 1 -> byte.unsigned b <> 2 ->
      malformed cached_certs (b :: in_)
  | malformed_short_hash (b : byte) (in_ : bytes) :
      byte.unsigned b = 2 -> size in_ < 8 ->
      malformed cached_certs (b :: in_)
  | malformed_hash_miss (b : byte) (in_ : bytes) :
      byte.unsigned b = 2 -> 8 <= size in_ ->
      ~ resolves cached_certs (load_uint64 in_ 0) ->
      malformed cached_certs (b :: in_)
  | malformed_after_compressed (b : byte) (in_ : bytes) :
      byte.unsigned b = 1 ->
      malformed cached_certs in_ ->
      malformed cached_certs (b :: in_)
  | malformed_after_cached (b : byte) (in_ : bytes) :
      byte.unsigned b = 2 -> 8 <= size in_ ->
      resolves cached_certs (load_uint64 in_ 0) ->
      malformed cached_certs (drop 8 in_) ->
      malformed cached_certs (b :: in_).

(** The memo [cached_hashes] of [ParseEntries] is either still empty or the
    hashes of the local cache. *)
Definition memo_ok (cached_certs : list bytes) (cached_hashes : list Z) : Prop :=
  cached_hashes = [] \/ cached_hashes = HashCerts cached_certs.

(** What the slot of an entry holds when [ParseEntries] has read the entry. *)
Definition slot_of (cached_certs : list bytes) (e : CertEntry) (cert : bytes) : Prop :=
  match e with
  | COMPRESSED => cert = []
  | CACHED hash => exists k : nat, first_with_hash cached_certs hash k cert
  end.

(** The certificates of the end-to-end example: the ASCII strings "CERT_A"
    and "CERT_B". *)
Definition CERT_A : bytes := map byte.of_Z [67; 69; 82; 84; 95; 65].
Definition CERT_B : bytes := map byte.of_Z [67; 69; 82; 84; 95; 66].

(** The payload of the specification: for every [COMPRESSED] entry, in
    order, the 4-byte length of its certificate and the certificate. *)
Fixpoint payload_of (entries : list CertEntry) (certs : list bytes) : bytes :=
  match entries, certs with
  | COMPRESSED :: entries', cert :: certs' =>
      store_uint32 (size cert) ++ cert ++ payload_of entries' certs'
  | CACHED _ :: entries', _ :: certs' => payload_of entries' certs'
  | _, _ => []
  end.

Definition is_hash_event (ev : Event) : bool :=
  match ev with
  | EvHashCerts => true
  | _ => false
  end.

(** A frame whose entry list breaks off after a resolved cached entry: the
    entry of [CERT_A], then the type byte 5. *)
Definition broken_frame : bytes :=
  byte.of_Z 2 :: store_uint64 (FNV1a_64_Hash CERT_A) ++ [byte.of_Z 5].

(** ** The round trip *)

(** The hashes a peer advertises for the certificates [subset] it holds:
    their FNV-1a hashes, 8 bytes each, one after the other. *)
Definition hashes_of (subset : list bytes) : bytes :=
  concat (map (fun cert => store_uint64 (FNV1a_64_Hash cert)) subset).

(** The hash of [cert] is the hash of a certificate of [subset]. *)
Definition in_cache (subset : list bytes) (cert : bytes) : bool :=
  existsb (fun c => FNV1a_64_Hash c =? FNV1a_64_Hash cert) subset.


(** Every certificate of [chain] whose hash the peer advertises is, in the
    cache [subset] of the peer, the first certificate with that hash. *)
Definition cache_first (subset chain : list bytes) : Prop :=
  forall cert : bytes,
    In cert chain -> in_cache subset cert = true ->
    exists k : nat, first_with_hash subset (FNV1a_64_Hash cert) k cert.





(** The frame of the end-to-end example: the chain "CERT_A", "CERT_B" for a
    peer that advertises the hash of "CERT_A", with the reference
    implementation of zlib. *)
Definition example_frame : bytes :=
  @CompressChain StoredZlib.impl [CERT_A; CERT_B] (hashes_of [CERT_A]).

(** A frame of one compressed entry that declares a payload of one byte
    above 128 KiB, and one that declares exactly 128 KiB. *)
Definition over_ceiling_frame : bytes :=
  byte.of_Z 1 :: byte.of_Z 0 :: store_uint32 (128 * 1024 + 1) ++ [byte.of_Z 0].
Definition at_ceiling_frame : bytes :=
  byte.of_Z 1 :: byte.of_Z 0 :: store_uint32 (128 * 1024) ++ [byte.of_Z 0].


(** Two certificates with the same FNV-1a hash: the ASCII strings
    "eimolbhcngpkjlkd" and "nnmbfookcnjdaimp". *)
Definition colliding_a : bytes :=
  map byte.of_Z [101; 105; 109; 111; 108; 98; 104; 99; 110; 103; 112; 107; 106; 108; 107; 100].
Definition colliding_b : bytes :=
  map byte.of_Z [110; 110; 109; 98; 102; 111; 111; 107; 99; 110; 106; 100; 97; 105; 109; 112].


(** ** Further notions: the wire form of the entries *)

(** An entry that [ParseEntries] can read back against [cached_certs]: the
    hash of a [CACHED] entry is a 64-bit value and the hash of a certificate
    of the local cache. *)
Definition readable (cached_certs : list bytes) (e : CertEntry) : Prop :=
  match e with
  | COMPRESSED => True
  | CACHED hash => 0 <= hash < 2 ^ 64 /\ resolves cached_certs hash
  end.

(** The hash of a [CACHED] entry is a 64-bit value. *)
Definition hash_in_range (e : CertEntry) : Prop :=
  match e with
  | COMPRESSED => True
  | CACHED hash => 0 <= hash < 2 ^ 64
  end.

(** ** Further notions: the size of the dictionary *)

(** The first loop of [ZlibDictForEntries], which adds up [zlib_dict_size]
    with [size_t] arithmetic; [n = i + 1] as in [ZlibDict_loop]. *)
Fixpoint zlib_dict_size_loop (n : nat) (entries : list CertEntry)
    (certs : list bytes) (zlib_dict_size : Z) : Z :=
  match n with
  | O => zlib_dict_size
  | S i =>
      zlib_dict_size_loop i entries certs
        (if negb (is_compressed (entries !!! i))
         then to_size_t (zlib_dict_size + size (certs !!! i))
         else zlib_dict_size)
  end.

(** [zlib_dict_size] when [ZlibDictForEntries] reaches its [QUICHE_DCHECK_EQ];
    [sizeof(kCommonCertSubstrings)] is the number of bytes of the table. *)
Definition zlib_dict_size (entries : list CertEntry) (certs : list bytes) : Z :=
  to_size_t (zlib_dict_size_loop (length certs) entries certs 0
             + size kCommonCertSubstrings).

(** ** Further notions: the zlib calls of a decode call *)

(** The sequences of zlib calls a decode call can make once it has its
    buffer. *)
Definition zlib_calls (evs : list Event) : Prop :=
  evs = [EvInflateInit] \/
  evs = [EvInflateInit; EvInflate] \/
  evs = [EvInflateInit; EvInflate; EvInflateSetDictionary] \/
  evs = [EvInflateInit; EvInflate; EvInflateSetDictionary; EvInflate].

(** ** Further notions: what the encoder expects of [deflate] *)

Section DeflateContract.

Context {zlib : Zlib}.

(** [deflate] stores at most [avail_out] bytes. *)
Definition deflate_fits : Prop :=
  forall (s : deflate_state) (input : bytes) (avail flush : Z),
    0 <= avail -> size (snd (fst (deflate s input avail flush))) <= avail.


End DeflateContract.

(** ** [ScopedZLib] *)

(** [ScopedZLib::Type] *)
Inductive ScopedZLib_Type : Type :=
  | INFLATE
  | DEFLATE.

(** The calls that end a zlib context, a context being named by its
    address. *)
Inductive EndCall : Type :=
  | deflateEnd (z : nat)
  | inflateEnd (z : nat).

(** The object: [z_] is [None] for [nullptr]. *)
Record ScopedZLib : Type := mkScopedZLib {
  z_ : option nat;
  type_ : ScopedZLib_Type
}.

(** The constructor. *)
Definition ScopedZLib_new (type : ScopedZLib_Type) : ScopedZLib :=
  mkScopedZLib None type.

(** [Clear]: the object afterwards and the calls made. *)
Definition Clear (s : ScopedZLib) : ScopedZLib * list EndCall :=
  match z_ s with
  | None => (s, [])
  | Some z =>
      (mkScopedZLib None (type_ s),
       [match type_ s with
        | DEFLATE => deflateEnd z
        | INFLATE => inflateEnd z
        end])
  end.

(** [reset] *)
Definition reset (s : ScopedZLib) (z : option nat) : ScopedZLib * list EndCall :=
  let '(s, calls) := Clear s in
  (mkScopedZLib z (type_ s), calls).

(** The destructor: the calls made. *)
Definition ScopedZLib_delete (s : ScopedZLib) : list EndCall := snd (Clear s).

(** A life of an object: [reset] is called with each of [zs] in turn. *)
Fixpoint resets (s : ScopedZLib) (zs : list (option nat)) : ScopedZLib * list EndCall :=
  match zs with
  | [] => (s, [])
  | z :: zs' =>
      let '(s, calls) := reset s z in
      let '(s, calls') := resets s zs' in
      (s, calls ++ calls')
  end.

(** The call that ends the context [z] of an object of type [type]. *)
Definition end_call (type : ScopedZLib_Type) (z : nat) : EndCall :=
  match type with
  | DEFLATE => deflateEnd z
  | INFLATE => inflateEnd z
  end.

(** ** Further notions: what a malformed entry list leaves *)

(** A malformed entry list at the head of the input, with the entries that
    are read before the defect is met and the slots they open: [malformed],
    with what [ParseEntries] has pushed when it returns false. *)
Inductive broken_at (cached_certs : list bytes)
    : bytes -> list CertEntry -> list bytes -> Prop :=
  | broken_no_end_marker :
      broken_at cached_certs [] [] []
  | broken_type_byte (b : byte) (in_ : bytes) :
      byte.unsigned b <> 0 -> byte.unsigned b <> 1 -> byte.unsigned b <> 2 ->
      broken_at cached_certs (b :: in_) [] []
  | broken_short_hash (b : byte) (in_ : bytes) :
      byte.unsigned b = 2 -> size in_ < 8 ->
      broken_at cached_certs (b :: in_) [] []
  | broken_hash_miss (b : byte) (in_ : bytes) :
      byte.unsigned b = 2 -> 8 <= size in_ ->
      ~ resolves cached_certs (load_uint64 in_ 0) ->
      broken_at cached_certs (b :: in_) [] []
  | broken_after_compressed (b : byte) (in_ : bytes) entries certs :
      byte.unsigned b = 1 ->
      broken_at cached_certs in_ entries certs ->
      broken_at cached_certs (b :: in_) (COMPRESSED :: entries) ([] :: certs)
  | broken_after_cached (b : byte) (in_ : bytes) (k : nat) (cert : bytes) entries certs :
      byte.unsigned b = 2 -> 8 <= size in_ ->
      first_with_hash cached_certs (load_uint64 in_ 0) k cert ->
      broken_at cached_certs (drop 8 in_) entries certs ->
      broken_at cached_certs (b :: in_)
        (CACHED (load_uint64 in_ 0) :: entries) (cert :: certs).

(** An entry list that ends without its end marker: the entry of [CERT_B],
    resolved against the local cache, then a [COMPRESSED] entry. *)
Definition unterminated_frame : bytes :=
  byte.of_Z 2 :: store_uint64 (FNV1a_64_Hash CERT_B) ++ [byte.of_Z 1].

(** ** Further notions: a frame of more than 4 GiB *)


(** * Properties *)

(** ** Lists and integers *)

Lemma lookup_map {A B : Type} (f : A -> B) (l : list A) (i : nat) :
  map f l !! i = f <$> l !! i.
Proof.
  revert i. induction l as [|a l IH]; intros [|i]; simpl; auto.
Qed.

Lemma size_nonneg {A : Type} (l : list A) : 0 <= size l.
Proof. unfold size. lia. Qed.

Lemma size_app {A : Type} (l k : list A) : size (l ++ k) = size l + size k.
Proof. unfold size. rewrite length_app. lia. Qed.

Lemma size_nil_iff {A : Type} (l : list A) : size l = 0 <-> l = [].
Proof.
  unfold size. destruct l; simpl; split; intros H; try reflexivity; try discriminate; lia.
Qed.

Lemma FNV1a_64_Hash_range (data : bytes) : 0 <= FNV1a_64_Hash data < 2 ^ 64.
Proof.
  unfold FNV1a_64_Hash.
  assert (H0 : 0 <= kOffset < 2 ^ 64) by (unfold kOffset; lia).
  revert H0. generalize kOffset. induction data as [|b data IH]; intros h Hh; simpl.
  - exact Hh.
  - apply IH. unfold to_uint64. apply Z.mod_pos_bound. lia.
Qed.

(** ** MatchCerts *)

Lemma MatchCerts_loop_map (cached_valid : bool) (hashes : bytes)
    (certs : list bytes) (entries : list CertEntry) :
  MatchCerts_loop cached_valid hashes certs entries
  = entries ++ map (match_cert cached_valid hashes) certs.
Proof.
  revert entries. induction certs as [|cert certs IH]; intros entries; simpl.
  - now rewrite app_nil_r.
  - rewrite IH, <- app_assoc. reflexivity.
Qed.

Lemma hash_scan_true (fuel : nat) (hash : Z) (hashes : bytes) (j : nat) :
  hash_scan fuel hash hashes j = true ->
  exists k : nat, (j + 8 * k < length hashes)%nat /\ load_uint64 hashes (j + 8 * k) = hash.
Proof.
  revert j. induction fuel as [|fuel IH]; intros j; cbn [hash_scan]; [discriminate|].
  destruct (Nat.ltb_spec j (length hashes)) as [Hj|Hj]; [|discriminate].
  destruct (Z.eqb_spec hash (load_uint64 hashes j)) as [He|He].
  - intros _. exists O. rewrite Nat.add_0_r. split; [lia|congruence].
  - intros H. destruct (IH _ H) as (k & Hk & Hl). exists (S k).
    replace (j + 8 * S k)%nat with (j + 8 + 8 * k)%nat by lia. split; assumption.
Qed.

Lemma hash_scan_false (fuel : nat) (hash : Z) (hashes : bytes) (j : nat) :
  (length hashes <= j + 8 * fuel)%nat ->
  hash_scan fuel hash hashes j = false ->
  forall k : nat, (j + 8 * k < length hashes)%nat -> load_uint64 hashes (j + 8 * k) <> hash.
Proof.
  revert j. induction fuel as [|fuel IH]; intros j Hfuel; cbn [hash_scan].
  - intros _ k Hk. lia.
  - destruct (Nat.ltb_spec j (length hashes)) as [Hj|Hj]; [|intros _ k Hk; lia].
    destruct (Z.eqb_spec hash (load_uint64 hashes j)) as [He|He]; [discriminate|].
    intros H [|k] Hk.
    + rewrite Nat.add_0_r. congruence.
    + replace (j + 8 * S k)%nat with (j + 8 + 8 * k)%nat in * by lia.
      apply IH; auto. lia.
Qed.

Lemma hash_scan_advertised (hash : Z) (hashes : bytes) :
  hash_scan (length hashes) hash hashes 0 = true <-> advertised hashes hash.
Proof.
  unfold advertised. split.
  - intros H. apply hash_scan_true in H. exact H.
  - intros (k & Hk & Hl).
    destruct (hash_scan (length hashes) hash hashes 0) eqn:E; [reflexivity|].
    exfalso. apply (hash_scan_false (length hashes) hash hashes 0) with (k := k) in E;
      [contradiction | lia | exact Hk].
Qed.

Lemma MatchCerts_length (certs : list bytes) (hashes : bytes) :
  length (MatchCerts certs hashes) = length certs.
Proof.
  unfold MatchCerts. rewrite MatchCerts_loop_map. simpl. apply length_map.
Qed.

Lemma MatchCerts_lookup (certs : list bytes) (hashes : bytes) (i : nat) :
  MatchCerts certs hashes !! i
  = match_cert ((size hashes mod 8 =? 0) && negb (size hashes =? 0)) hashes
      <$> certs !! i.
Proof.
  unfold MatchCerts. rewrite MatchCerts_loop_map. simpl. apply lookup_map.
Qed.

(** C2. Cache matching.  An advertised string that is empty or whose length
    is not a multiple of 8 is ignored: every entry is [COMPRESSED].
    Otherwise the entry of each certificate, in the order of the chain, is
    [CACHED] with the FNV-1a hash of the certificate exactly when that hash
    is one of the advertised 8-byte values, and [COMPRESSED] otherwise. *)
Theorem MatchCerts_cache_matching (certs : list bytes) (hashes : bytes) :
  length (MatchCerts certs hashes) = length certs /\
  (hashes = [] \/ size hashes mod 8 <> 0 ->
   forall (i : nat) (cert : bytes), certs !! i = Some cert ->
     MatchCerts certs hashes !! i = Some COMPRESSED) /\
  (hashes <> [] -> size hashes mod 8 = 0 ->
   forall (i : nat) (cert : bytes), certs !! i = Some cert ->
     (advertised hashes (FNV1a_64_Hash cert) ->
      MatchCerts certs hashes !! i = Some (CACHED (FNV1a_64_Hash cert))) /\
     (~ advertised hashes (FNV1a_64_Hash cert) ->
      MatchCerts certs hashes !! i = Some COMPRESSED)).
Proof.
  split; [apply MatchCerts_length|]. split.
  - intros Hinvalid i cert Hi. rewrite MatchCerts_lookup, Hi. simpl.
    replace ((size hashes mod 8 =? 0) && negb (size hashes =? 0)) with false; [reflexivity|].
    symmetry. apply andb_false_iff. destruct Hinvalid as [->|Hm].
    + right. reflexivity.
    + left. now apply Z.eqb_neq.
  - intros Hne Hm i cert Hi. rewrite MatchCerts_lookup, Hi. simpl.
    replace ((size hashes mod 8 =? 0) && negb (size hashes =? 0)) with true.
    + unfold match_cert.
      destruct (hash_scan (length hashes) (FNV1a_64_Hash cert) hashes 0) eqn:E.
      * split; [reflexivity|]. intros Hn. exfalso. apply Hn.
        now apply hash_scan_advertised.
      * split; [|reflexivity]. intros Ha. apply hash_scan_advertised in Ha. congruence.
    + symmetry. apply andb_true_iff. split; [now apply Z.eqb_eq|].
      apply negb_true_iff, Z.eqb_neq. rewrite size_nil_iff. exact Hne.
Qed.

(** ** ZlibDictForEntries *)

Lemma cached_certs_of_snoc (entries : list CertEntry) (certs : list bytes)
    (e : CertEntry) (cert : bytes) :
  length entries = length certs ->
  cached_certs_of (entries ++ [e]) (certs ++ [cert])
  = cached_certs_of entries certs ++ (if is_compressed e then [] else [cert]).
Proof.
  revert certs. induction entries as [|e' entries IH]; intros [|cert' certs] Hlen;
    simpl in Hlen; try discriminate.
  - simpl. now destruct (is_compressed e).
  - simpl. rewrite IH by lia. now destruct (is_compressed e').
Qed.

Lemma ZlibDict_loop_spec (n : nat) (entries : list CertEntry) (certs : list bytes)
    (zlib_dict : bytes) :
  length entries = length certs ->
  (n <= length certs)%nat ->
  ZlibDict_loop n entries certs zlib_dict
  = zlib_dict ++ concat (rev (cached_certs_of (take n entries) (take n certs))).
Proof.
  intros Hlen. revert zlib_dict. induction n as [|i IH]; intros zlib_dict Hn.
  - simpl. now rewrite app_nil_r.
  - cbn [ZlibDict_loop].
    destruct (lookup_lt_is_Some_2 entries i) as [e He]; [lia|].
    destruct (lookup_lt_is_Some_2 certs i) as [cert Hc]; [lia|].
    rewrite (take_S_r _ _ _ He), (take_S_r _ _ _ Hc).
    rewrite cached_certs_of_snoc by (rewrite !length_take; lia).
    rewrite (list_lookup_total_correct _ _ _ He), (list_lookup_total_correct _ _ _ Hc).
    rewrite IH by lia. rewrite rev_app_distr, concat_app.
    destruct (is_compressed e); simpl.
    + reflexivity.
    + now rewrite app_nil_r, <- app_assoc.
Qed.

Lemma ZlibDictForEntries_cached (entries : list CertEntry) (certs : list bytes) :
  length entries = length certs ->
  ZlibDictForEntries entries certs
  = concat (rev (cached_certs_of entries certs)) ++ kCommonCertSubstrings.
Proof.
  intros Hlen. unfold ZlibDictForEntries. rewrite ZlibDict_loop_spec by lia.
  rewrite <- Hlen at 1. rewrite !firstn_all. reflexivity.
Qed.


(** C3. Dictionary construction.  For entries and certificates of equal
    length the dictionary is the certificates of the entries that are not
    [COMPRESSED], highest index first, followed by the static corpus; and two
    calls on identical inputs give identical dictionaries. *)
Theorem ZlibDictForEntries_spec (entries : list CertEntry) (certs : list bytes) :
  length entries = length certs ->
  ZlibDictForEntries entries certs
  = concat (rev (cached_certs_of entries certs)) ++ kCommonCertSubstrings
  /\ forall (entries' : list CertEntry) (certs' : list bytes),
       entries' = entries -> certs' = certs ->
       ZlibDictForEntries entries' certs' = ZlibDictForEntries entries certs.
Proof.
  intros Hlen. split.
  - now apply ZlibDictForEntries_cached.
  - intros entries' certs' -> ->. reflexivity.
Qed.

Lemma ZlibDictForEntries_spec_witness :
  ZlibDictForEntries [CACHED 7; COMPRESSED; CACHED 9]
    [[byte.of_Z 1]; [byte.of_Z 2]; [byte.of_Z 3; byte.of_Z 4]]
  = [byte.of_Z 3; byte.of_Z 4; byte.of_Z 1] ++ kCommonCertSubstrings.
Proof.
  exact (proj1 (ZlibDictForEntries_spec [CACHED 7; COMPRESSED; CACHED 9]
    [[byte.of_Z 1]; [byte.of_Z 2]; [byte.of_Z 3; byte.of_Z 4]] eq_refl)).
Defined.

(** ** CertEntriesSize *)

Lemma wrap_add_l (a b : Z) : (a mod 2 ^ 64 + b) mod 2 ^ 64 = (a + b) mod 2 ^ 64.
Proof. apply Zplus_mod_idemp_l. Qed.

Lemma CertEntriesSize_loop_wraps (entries : list CertEntry) (entries_size : Z) :
  CertEntriesSize_loop entries entries_size mod 2 ^ 64
  = (entries_size + serialized_size entries - 1) mod 2 ^ 64.
Proof.
  revert entries_size. induction entries as [|e entries IH]; intros entries_size.
  - simpl. f_equal. lia.
  - cbn [CertEntriesSize_loop serialized_size]. destruct e; rewrite IH; unfold to_size_t.
    + rewrite <- Z.add_sub_assoc, wrap_add_l. f_equal. lia.
    + rewrite <- Z.add_sub_assoc, wrap_add_l, <- Z.add_assoc, wrap_add_l. f_equal. lia.
Qed.

Lemma CertEntriesSize_wraps (entries : list CertEntry) :
  CertEntriesSize entries = serialized_size entries mod 2 ^ 64.
Proof.
  unfold CertEntriesSize, to_size_t.
  rewrite <- wrap_add_l, CertEntriesSize_loop_wraps, wrap_add_l.
  f_equal. lia.
Qed.

Lemma serialized_size_bounds (entries : list CertEntry) :
  size entries + 1 <= serialized_size entries <= 9 * size entries + 1.
Proof.
  unfold size. induction entries as [|[|h] entries IH];
    cbn [serialized_size length]; lia.
Qed.

Lemma SerializeCertEntries_size (entries : list CertEntry) :
  size (SerializeCertEntries entries) = serialized_size entries.
Proof.
  unfold size. induction entries as [|[|h] entries IH];
    cbn [SerializeCertEntries serialized_size wire_type length app].
  - reflexivity.
  - lia.
  - unfold store_uint64. rewrite length_app, length_le_split. lia.
Qed.



(** ** ParseEntries *)

Lemma find_hash_Some (hash : Z) (cached_certs : list bytes) (i k : nat) :
  find_hash hash (HashCerts cached_certs) i = Some k ->
  exists (k' : nat) (cert : bytes),
    k = (i + k')%nat /\ first_with_hash cached_certs hash k' cert.
Proof.
  revert i. induction cached_certs as [|c cs IH]; intros i; simpl; [discriminate|].
  destruct (Z.eqb_spec (FNV1a_64_Hash c) hash) as [Heq|Hne].
  - intros [= <-]. exists O, c. split; [lia|]. repeat split; auto.
    intros j c' Hj. lia.
  - intros H. destruct (IH _ H) as (k' & cert & -> & Hl & Hh & Hmin).
    exists (S k'), cert. split; [lia|]. repeat split; auto.
    intros [|j] c' Hj Hc'; simpl in Hc'.
    + now injection Hc' as <-.
    + apply (Hmin j); auto. lia.
Qed.

Lemma find_hash_None (hash : Z) (cached_certs : list bytes) (i : nat) :
  find_hash hash (HashCerts cached_certs) i = None ->
  ~ resolves cached_certs hash.
Proof.
  revert i. induction cached_certs as [|c cs IH]; intros i; simpl.
  - intros _ (cert & [] & _).
  - destruct (Z.eqb_spec (FNV1a_64_Hash c) hash) as [Heq|Hne]; [discriminate|].
    intros H (cert & [<-|Hin] & Hh); [contradiction|].
    apply (IH _ H). exists cert. auto.
Qed.

Lemma first_with_hash_resolves (cached_certs : list bytes) (hash : Z) (k : nat)
    (cert : bytes) :
  first_with_hash cached_certs hash k cert -> resolves cached_certs hash.
Proof.
  intros (Hl & Hh & _). exists cert. split; [|exact Hh].
  apply list_elem_of_In. eapply list_elem_of_lookup_2. exact Hl.
Qed.

Lemma first_with_hash_unique (cached_certs : list bytes) (hash : Z)
    (k k' : nat) (cert cert' : bytes) :
  first_with_hash cached_certs hash k cert ->
  first_with_hash cached_certs hash k' cert' ->
  k = k' /\ cert = cert'.
Proof.
  intros (Hl & Hh & Hmin) (Hl' & Hh' & Hmin').
  assert (k = k') as <-.
  { destruct (lt_eq_lt_dec k k') as [[Hlt|Heq]|Hgt]; [|exact Heq|].
    - destruct (Hmin' _ _ Hlt Hl Hh).
    - destruct (Hmin _ _ Hgt Hl' Hh'). }
  split; [reflexivity|congruence].
Qed.

Lemma first_with_hash_find (cached_certs : list bytes) (hash : Z) (k : nat)
    (cert : bytes) :
  first_with_hash cached_certs hash k cert ->
  find_hash hash (HashCerts cached_certs) 0 = Some k.
Proof.
  intros Hf. destruct (find_hash hash (HashCerts cached_certs) 0) as [k'|] eqn:E.
  - destruct (find_hash_Some _ _ _ _ E) as (k'' & cert' & -> & Hf').
    destruct (first_with_hash_unique _ _ _ _ _ _ Hf Hf') as [-> _]. reflexivity.
  - destruct (find_hash_None _ _ _ E). eapply first_with_hash_resolves, Hf.
Qed.

Lemma memo_effective (cached_certs : list bytes) (cached_hashes : list Z) :
  memo_ok cached_certs cached_hashes ->
  (if negb (size cached_hashes =? size cached_certs)
   then HashCerts cached_certs else cached_hashes) = HashCerts cached_certs.
Proof.
  intros [->| ->].
  - destruct cached_certs; reflexivity.
  - now destruct (negb _).
Qed.

Lemma size_HashCerts (cached_certs : list bytes) :
  size (HashCerts cached_certs) = size cached_certs.
Proof. unfold size, HashCerts. now rewrite length_map. Qed.

Lemma ParseEntries_loop_spec (fuel : nat) (cached_certs : list bytes)
    (in_0 in_ : bytes) (cached_hashes : list Z) (out_entries : list CertEntry)
    (out_certs : list bytes) (events : list Event) :
  memo_ok cached_certs cached_hashes ->
  (length in_ < fuel)%nat ->
  let r := ParseEntries_loop fuel cached_certs in_0 in_ cached_hashes
             out_entries out_certs events in
  exists (entries : list CertEntry) (certs : list bytes),
    p_entries r = out_entries ++ entries /\
    p_certs r = out_certs ++ certs /\
    Forall2 (slot_of cached_certs) entries certs /\
    (size cached_hashes = size cached_certs -> p_events r = events) /\
    (p_events r = events \/ p_events r = events ++ [EvHashCerts]) /\
    if p_ok r then
      parsed cached_certs in_ entries certs (p_in r) /\
      p_events r
      = events ++ (if forallb is_compressed entries
                      || (size cached_hashes =? size cached_certs)
                   then [] else [EvHashCerts])
    else malformed cached_certs in_ /\ p_in r = in_0.
Proof.
  revert in_ cached_hashes out_entries out_certs events.
  induction fuel as [|fuel IH]; intros in_ cached_hashes out_entries out_certs events
    Hmemo Hfuel; [lia|].
  cbn [ParseEntries_loop].
  destruct in_ as [|b in_].
  { exists [], []. cbn. rewrite !app_nil_r. repeat split; auto. constructor. }
  cbn [length] in Hfuel.
  destruct (Z.eqb_spec (byte.unsigned b) 0) as [Hb0|Hb0].
  { exists [], []. cbn. rewrite !app_nil_r. repeat split; auto. now constructor. }
  destruct (Z.eqb_spec (byte.unsigned b) 1) as [Hb1|Hb1].
  { destruct (IH in_ cached_hashes (out_entries ++ [COMPRESSED]) (out_certs ++ [[]])
                events Hmemo ltac:(lia)) as (es & cs & He & Hc & Hs & Hev1 & Hev2 & Hok).
    exists (COMPRESSED :: es), ([] :: cs). cbn zeta in *.
    rewrite He, Hc, <- !app_assoc. repeat split; auto.
    - constructor; [reflexivity|exact Hs].
    - destruct (p_ok _).
      + destruct Hok as [Hp Hev']. split; [now constructor|exact Hev'].
      + destruct Hok as [Hm Hin]. split; [now apply malformed_after_compressed|exact Hin]. }
  destruct (Z.eqb_spec (byte.unsigned b) 2) as [Hb2|Hb2].
  2:{ exists [], []. cbn. rewrite !app_nil_r. repeat split; auto.
      now apply malformed_type_byte. }
  destruct (Z.ltb_spec (size in_) 8) as [Hshort|Hlong].
  { exists [], []. cbn. rewrite !app_nil_r. repeat split; auto.
    now apply malformed_short_hash. }
  cbn zeta. rewrite (memo_effective _ _ Hmemo).
  set (events' := if negb (size cached_hashes =? size cached_certs)
                  then events ++ [EvHashCerts] else events).
  assert (Hev1' : size cached_hashes = size cached_certs -> events' = events).
  { intros Hs. subst events'. now rewrite Hs, Z.eqb_refl. }
  assert (Hev2' : events' = events \/ events' = events ++ [EvHashCerts]).
  { subst events'. destruct (negb _); auto. }
  destruct (find_hash (load_uint64 in_ 0) (HashCerts cached_certs) 0) as [k|] eqn:Hfind.
  2:{ exists [], []. cbn. rewrite !app_nil_r. repeat split; auto.
      apply malformed_hash_miss; auto. eapply find_hash_None, Hfind. }
  destruct (find_hash_Some _ _ _ _ Hfind) as (k' & cert & -> & Hfirst).
  cbn [Nat.add].
  rewrite (list_lookup_total_correct _ _ _ (proj1 Hfirst)).
  assert (Hdrop : (length (drop 8 in_) < fuel)%nat) by (rewrite length_drop; lia).
  destruct (IH (drop 8 in_) (HashCerts cached_certs)
              (out_entries ++ [CACHED (load_uint64 in_ 0)]) (out_certs ++ [cert])
              events' (or_intror eq_refl) Hdrop)
    as (es & cs & He & Hc & Hs & Hev1 & _ & Hok).
  specialize (Hev1 (size_HashCerts _)).
  exists (CACHED (load_uint64 in_ 0) :: es), (cert :: cs). cbn zeta in *.
  rewrite He, Hc, Hev1, <- !app_assoc. repeat split; auto.
  - constructor; [now exists k'|exact Hs].
  - destruct (p_ok _).
    + destruct Hok as [Hp _]. split.
      * econstructor; eauto.
      * subst events'. cbn [forallb is_compressed andb orb].
        destruct (size cached_hashes =? size cached_certs); cbn [negb];
          [now rewrite app_nil_r|reflexivity].
    + destruct Hok as [Hm Hin]. split; [|exact Hin].
      eapply malformed_after_cached; eauto. eapply first_with_hash_resolves, Hfirst.
Qed.

Lemma ParseEntries_spec (in_ : bytes) (cached_certs : list bytes)
    (out_entries : list CertEntry) (out_certs : list bytes) :
  let r := ParseEntries in_ cached_certs out_entries out_certs in
  Forall2 (slot_of cached_certs) (p_entries r) (p_certs r) /\
  (p_events r = [] \/ p_events r = [EvHashCerts]) /\
  (cached_certs = [] -> p_events r = []) /\
  if p_ok r then
    parsed cached_certs in_ (p_entries r) (p_certs r) (p_in r) /\
    p_events r = (if forallb is_compressed (p_entries r) || (0 =? size cached_certs)
                  then [] else [EvHashCerts])
  else malformed cached_certs in_ /\ p_in r = in_.
Proof.
  unfold ParseEntries.
  destruct (ParseEntries_loop_spec (S (length in_)) cached_certs in_ in_ [] [] [] []
              (or_introl eq_refl) ltac:(lia)) as (es & cs & He & Hc & Hs & Hev1 & Hev2 & Hok).
  cbn zeta in *. cbn [app] in *. rewrite He, Hc. repeat split; auto.
  intros ->. now apply Hev1.
Qed.

Lemma parsed_not_malformed (cached_certs : list bytes) (in_ : bytes)
    (entries : list CertEntry) (certs : list bytes) (rest : bytes) :
  parsed cached_certs in_ entries certs rest -> ~ malformed cached_certs in_.
Proof.
  induction 1 as [b rest Hb|b in_ es cs rest Hb Hp IH|b in_ k cert es cs rest Hb Hlen Hf Hp IH];
    intros Hm; inversion Hm; subst; try lia; try contradiction.
  match goal with H : ~ resolves _ _ |- _ => destruct H end.
  eapply first_with_hash_resolves, Hf.
Qed.

Lemma parsed_functional (cached_certs : list bytes) (in_ : bytes)
    (entries entries' : list CertEntry) (certs certs' : list bytes) (rest rest' : bytes) :
  parsed cached_certs in_ entries certs rest ->
  parsed cached_certs in_ entries' certs' rest' ->
  entries = entries' /\ certs = certs' /\ rest = rest'.
Proof.
  intros Hp. revert entries' certs' rest'.
  induction Hp as [b rest Hb|b in_ es cs rest Hb Hp IH|b in_ k cert es cs rest Hb Hlen Hf Hp IH];
    intros entries' certs' rest' Hp'; inversion Hp'; subst; try lia.
  - auto.
  - match goal with H : parsed _ _ _ _ _ |- _ =>
      destruct (IH _ _ _ H) as (-> & -> & ->) end.
    auto.
  - match goal with H : parsed _ _ _ _ _ |- _ =>
      destruct (IH _ _ _ H) as (-> & -> & ->) end.
    match goal with H : first_with_hash _ _ _ ?c |- _ =>
      destruct (first_with_hash_unique _ _ _ _ _ _ Hf H) as [_ ->] end.
    auto.
Qed.

Lemma ParseEntries_ok_iff (in_ : bytes) (cached_certs : list bytes)
    (out_entries : list CertEntry) (out_certs : list bytes) :
  p_ok (ParseEntries in_ cached_certs out_entries out_certs) = false
  <-> malformed cached_certs in_.
Proof.
  pose proof (ParseEntries_spec in_ cached_certs out_entries out_certs) as (_ & _ & _ & H).
  cbn zeta in H. destruct (p_ok _).
  - split; [discriminate|]. intros Hm. destruct H as [Hp _].
    destruct (parsed_not_malformed _ _ _ _ _ Hp Hm).
  - split; [|reflexivity]. intros _. apply H.
Qed.

Lemma ParseEntries_parsed (in_ : bytes) (cached_certs : list bytes)
    (out_entries entries : list CertEntry) (out_certs certs : list bytes) (rest : bytes) :
  parsed cached_certs in_ entries certs rest ->
  let r := ParseEntries in_ cached_certs out_entries out_certs in
  p_ok r = true /\ p_in r = rest /\ p_entries r = entries /\ p_certs r = certs.
Proof.
  intros Hp.
  pose proof (ParseEntries_spec in_ cached_certs out_entries out_certs) as (_ & _ & _ & H).
  cbn zeta in *. destruct (p_ok _).
  - destruct H as [Hp' _].
    destruct (parsed_functional _ _ _ _ _ _ _ _ Hp Hp') as (-> & -> & ->). auto.
  - destruct H as [Hm _]. destruct (parsed_not_malformed _ _ _ _ _ Hp Hm).
Qed.

Lemma DecompressChain_parse_failure `{zlib : Zlib} (in_ : bytes)
    (cached_certs out_certs : list bytes) :
  p_ok (ParseEntries in_ cached_certs [] out_certs) = false ->
  DecompressChain in_ cached_certs out_certs
  = mkDecodeResult false (p_certs (ParseEntries in_ cached_certs [] out_certs))
      (p_events (ParseEntries in_ cached_certs [] out_certs)).
Proof. intros H. unfold DecompressChain. now rewrite H. Qed.

(** ** Alignment of entries and certificates *)

Lemma Forall2_slot_lookup (cached_certs : list bytes) (entries : list CertEntry)
    (certs : list bytes) :
  Forall2 (slot_of cached_certs) entries certs ->
  length entries = length certs /\
  forall (i : nat) (e : CertEntry), entries !! i = Some e ->
    exists cert : bytes, certs !! i = Some cert /\ slot_of cached_certs e cert.
Proof.
  intros H. split; [eapply Forall2_length, H|].
  intros i e He. destruct (Forall2_lookup_l _ _ _ _ _ H He) as (cert & Hc & Hs).
  exists cert. auto.
Qed.

(** C7. Alignment.  [MatchCerts] gives one entry per certificate, the entry
    at index [i] describing the certificate at index [i]; and when
    [ParseEntries] succeeds, the entries and the certificate list it leaves
    have equal length, the entry at index [i] deciding the slot at index [i]:
    empty for a [COMPRESSED] entry, the first certificate of the local cache
    with the hash of the entry for a [CACHED] one. *)
Theorem entries_aligned_with_certs (certs : list bytes) (hashes : bytes)
    (in_ : bytes) (cached_certs : list bytes) (out_entries : list CertEntry)
    (out_certs : list bytes) :
  (length (MatchCerts certs hashes) = length certs /\
   forall (i : nat) (e : CertEntry), MatchCerts certs hashes !! i = Some e ->
     exists cert : bytes,
       certs !! i = Some cert /\ (e = COMPRESSED \/ e = CACHED (FNV1a_64_Hash cert))) /\
  (p_ok (ParseEntries in_ cached_certs out_entries out_certs) = true ->
   let r := ParseEntries in_ cached_certs out_entries out_certs in
   length (p_entries r) = length (p_certs r) /\
   forall (i : nat) (e : CertEntry), p_entries r !! i = Some e ->
     exists cert : bytes, p_certs r !! i = Some cert /\ slot_of cached_certs e cert).
Proof.
  split.
  - split; [apply MatchCerts_length|].
    intros i e. rewrite MatchCerts_lookup.
    destruct (certs !! i) as [cert|]; [|discriminate].
    cbn. intros [= <-]. exists cert. split; [reflexivity|].
    unfold match_cert. destruct (_ && _); auto. destruct (hash_scan _ _ _ _); auto.
  - intros _. cbn zeta.
    apply Forall2_slot_lookup, ParseEntries_spec.
Qed.

Lemma entries_aligned_with_certs_witness :
  let r := ParseEntries
             (byte.of_Z 1 :: byte.of_Z 2 :: store_uint64 (FNV1a_64_Hash CERT_A)
              ++ [byte.of_Z 0]) [CERT_A] [] [] in
  length (p_entries r) = length (p_certs r) /\
  forall (i : nat) (e : CertEntry), p_entries r !! i = Some e ->
    exists cert : bytes, p_certs r !! i = Some cert /\ slot_of [CERT_A] e cert.
Proof.
  apply (proj2 (entries_aligned_with_certs [] []
    (byte.of_Z 1 :: byte.of_Z 2 :: store_uint64 (FNV1a_64_Hash CERT_A) ++ [byte.of_Z 0])
    [CERT_A] [] [])).
  vm_compute. reflexivity.
Defined.

(** ** The last loop of DecompressChain *)

Lemma load_store_uint32 (s : bytes) :
  4 <= size s -> store_uint32 (load_uint32 s) = take 4 s.
Proof.
  unfold size, store_uint32, load_uint32. intros H.
  rewrite <- (split_le_combine (take 4 s)) at 2.
  rewrite length_take. f_equal. lia.
Qed.

Lemma load_uint32_range (s : bytes) : 0 <= load_uint32 s < 2 ^ 32.
Proof.
  unfold load_uint32. pose proof (le_combine_bound (take 4 s)) as H.
  rewrite length_take in H.
  assert (2 ^ (8 * Z.of_nat (4 `min` length s)) <= 2 ^ 32).
  { apply Z.pow_le_mono_r; lia. }
  lia.
Qed.

Lemma fill_certs_spec (entries : list CertEntry) (i : nat) (uncompressed : bytes)
    (out_certs : list bytes) (filled : bool) (uncompressed' : bytes)
    (out_certs' : list bytes) :
  fill_certs entries i uncompressed out_certs = (filled, uncompressed', out_certs') ->
  length out_certs' = length out_certs /\
  (forall j : nat, (j < i)%nat -> out_certs' !! j = out_certs !! j) /\
  (forall (j : nat) (h : Z), entries !! j = Some (CACHED h) ->
     out_certs' !! (i + j)%nat = out_certs !! (i + j)%nat) /\
  (filled = true -> length out_certs = (i + length entries)%nat ->
   uncompressed = payload_of entries (drop i out_certs') ++ uncompressed').
Proof.
  revert i uncompressed out_certs.
  induction entries as [|e entries IH]; intros i uncompressed out_certs.
  - cbn. intros [= <- <- <-]. repeat split; auto.
  - destruct e as [|h0]; cbn [fill_certs].
    + destruct (Z.ltb_spec (size uncompressed) 4) as [Hs|Hs].
      { intros [= <- <- <-]. repeat split; auto; discriminate. }
      cbn zeta.
      destruct (Z.ltb_spec (size (drop 4 uncompressed)) (load_uint32 uncompressed))
        as [Hc|Hc].
      { intros [= <- <- <-]. repeat split; auto; discriminate. }
      intros Hfill. apply IH in Hfill. destruct Hfill as (Hlen & Hlow & Hcached & Hpay).
      rewrite length_insert in Hlen. split; [exact Hlen|]. split; [|split].
      * intros j Hj. rewrite Hlow by lia. apply list_lookup_insert_ne. lia.
      * intros [|j] h Hj; [discriminate|]. cbn in Hj.
        replace (i + S j)%nat with (S i + j)%nat by lia.
        rewrite (Hcached _ _ Hj). apply list_lookup_insert_ne. lia.
      * intros Hf Hl. cbn [length] in Hl.
        specialize (Hpay Hf). rewrite length_insert in Hpay. specialize (Hpay ltac:(lia)).
        assert (Hi : out_certs' !! i
                     = Some (take (Z.to_nat (load_uint32 uncompressed)) (drop 4 uncompressed))).
        { rewrite Hlow by lia. apply list_lookup_insert_eq. lia. }
        rewrite (drop_S _ _ _ Hi). cbn [payload_of].
        pose proof (load_uint32_range uncompressed) as Hr.
        assert (Hsz : size (take (Z.to_nat (load_uint32 uncompressed)) (drop 4 uncompressed))
                      = load_uint32 uncompressed).
        { unfold size in *. rewrite length_take. lia. }
        rewrite Hsz, load_store_uint32 by lia.
        rewrite <- !app_assoc, <- Hpay, !take_drop. reflexivity.
    + intros Hfill. apply IH in Hfill. destruct Hfill as (Hlen & Hlow & Hcached & Hpay).
      split; [exact Hlen|]. split; [|split].
      * intros j Hj. apply Hlow. lia.
      * intros [|j] h Hj.
        -- rewrite Nat.add_0_r. apply Hlow. lia.
        -- cbn in Hj. replace (i + S j)%nat with (S i + j)%nat by lia. eauto.
      * intros Hf Hl. cbn [length] in Hl. specialize (Hpay Hf ltac:(lia)).
        destruct (lookup_lt_is_Some_2 out_certs' i) as [c Hc]; [lia|].
        rewrite (drop_S _ _ _ Hc). cbn [payload_of]. exact Hpay.
Qed.

(** ** The zlib calls of DecompressChain *)

Section Decode.

Context {zlib : Zlib}.

Lemma call_inflate_fields (z z' : z_stream inflate_state) (flush rv : Z) :
  call_inflate z flush = (rv, z') ->
  exists (c : nat) (produced : bytes),
    next_in z' = drop c (next_in z) /\
    avail_in z' = avail_in z - Z.of_nat c /\
    written z' = written z ++ produced /\
    avail_out z' = avail_out z - size produced.
Proof.
  unfold call_inflate, z_advance.
  destruct (inflate _ _ _ _) as [[[rv0 c] produced] s].
  intros [= _ <-]. exists c, produced. cbn. auto.
Qed.

Lemma run_inflate_spec (in_ : bytes) (uncompressed_size : Z)
    (entries : list CertEntry) (out_certs : list bytes) (rv : Z)
    (z : z_stream inflate_state) (evs : list Event) :
  run_inflate in_ uncompressed_size entries out_certs = (Some (rv, z), evs) ->
  (exists c : nat,
     next_in z = drop c in_ /\
     avail_in z = to_uint32 (size in_) - Z.of_nat c) /\
  avail_out z = uncompressed_size - size (written z).
Proof.
  unfold run_inflate.
  destruct inflateInit as [rv0 s0].
  destruct (negb (rv0 =? Z_OK)); [discriminate|].
  destruct (call_inflate _ _) as [rv1 z1] eqn:E1.
  apply call_inflate_fields in E1. cbn in E1.
  destruct E1 as (c1 & p1 & Hn1 & Ha1 & Hw1 & Ho1).
  destruct (rv1 =? Z_NEED_DICT).
  - destruct (inflateSetDictionary _ _) as [rv2 s2].
    destruct (negb (rv2 =? Z_OK)); [discriminate|].
    destruct (call_inflate _ _) as [rv3 z3] eqn:E3.
    apply call_inflate_fields in E3. cbn in E3.
    destruct E3 as (c3 & p3 & Hn3 & Ha3 & Hw3 & Ho3).
    intros [= <- <- <-]. split.
    + exists (c1 + c3)%nat. rewrite Hn3, Hn1, Ha3, Ha1, drop_drop. split; [reflexivity|lia].
    + rewrite Ho3, Ho1, Hw3, Hw1, size_app. cbn. unfold size. cbn. lia.
  - intros [= <- <- <-]. split.
    + exists c1. now rewrite Hn1, Ha1.
    + rewrite Ho1, Hw1. unfold size. cbn. lia.
Qed.

Lemma run_inflate_events (in_ : bytes) (uncompressed_size : Z)
    (entries : list CertEntry) (out_certs : list bytes) :
  exists evs : list Event,
    snd (run_inflate in_ uncompressed_size entries out_certs) = EvInflateInit :: evs /\
    forallb (fun ev => negb (is_hash_event ev)) evs = true.
Proof.
  unfold run_inflate.
  destruct inflateInit as [rv0 s0].
  destruct (negb (rv0 =? Z_OK)); [now exists []|].
  destruct (call_inflate _ _) as [rv1 z1].
  destruct (rv1 =? Z_NEED_DICT).
  - destruct (inflateSetDictionary _ _) as [rv2 s2].
    destruct (negb (rv2 =? Z_OK)); [now eexists|].
    destruct (call_inflate _ _) as [rv3 z3]. now eexists.
  - now eexists.
Qed.

Lemma write_at_whole (n : nat) (data : bytes) :
  length data = n -> write_at (repeat (byte.of_Z 0) n) 0 data = data.
Proof.
  intros <-. unfold write_at. cbn.
  rewrite drop_ge by (rewrite repeat_length; lia). apply app_nil_r.
Qed.

Lemma inflate_block_Some (in_ : bytes) (entries : list CertEntry)
    (out_certs : list bytes) (uncompressed : bytes) (evs : list Event) :
  inflate_block in_ entries out_certs = (Some uncompressed, evs) ->
  4 <= size in_ /\ load_uint32 in_ <= 128 * 1024 /\
  exists (z : z_stream inflate_state) (evs' : list Event),
    run_inflate (drop 4 in_) (load_uint32 in_) entries out_certs
    = (Some (Z_STREAM_END, z), evs') /\
    avail_in z = 0 /\ avail_out z = 0 /\
    written z = uncompressed /\ size uncompressed = load_uint32 in_ /\
    evs = EvAlloc (load_uint32 in_) :: evs'.
Proof.
  unfold inflate_block.
  destruct (Z.ltb_spec (size in_) 4) as [Hs|Hs]; [discriminate|].
  destruct (Z.ltb_spec (128 * 1024) (load_uint32 in_)) as [Hc|Hc]; [discriminate|].
  destruct (run_inflate _ _ _ _) as [[[rv z]|] evs'] eqn:Hrun; [|discriminate].
  destruct (Z.eqb_spec rv Z_STREAM_END) as [->|]; [|discriminate].
  destruct (Z.eqb_spec (avail_out z) 0) as [Ho|]; [|discriminate].
  destruct (Z.eqb_spec (avail_in z) 0) as [Hi|]; [|discriminate].
  cbn. intros [= <- <-].
  pose proof (run_inflate_spec _ _ _ _ _ _ _ Hrun) as [_ Hout].
  pose proof (load_uint32_range in_) as Hr.
  assert (Hw : size (written z) = load_uint32 in_) by lia.
  rewrite write_at_whole by (unfold size in Hw; lia).
  repeat split; auto. exists z, evs'. repeat split; auto.
Qed.

Lemma DecompressChain_cases (in_ : bytes) (cached_certs out_certs : list bytes) :
  let p := ParseEntries in_ cached_certs [] out_certs in
  let r := DecompressChain in_ cached_certs out_certs in
  (p_ok p = false /\ r = mkDecodeResult false (p_certs p) (p_events p)) \/
  (p_ok p = true /\
   exists (inflated : option bytes) (evs : list Event),
     (if negb (size (p_in p) =? 0)
      then inflate_block (p_in p) (p_entries p) (p_certs p)
      else (Some [], [])) = (inflated, evs) /\
     events r = p_events p ++ evs /\
     match inflated with
     | None => ok r = false /\ certs_out r = p_certs p
     | Some uncompressed =>
         exists (filled : bool) (uncompressed' : bytes),
           fill_certs (p_entries p) 0 uncompressed (p_certs p)
           = (filled, uncompressed', certs_out r) /\
           ok r = filled && (size uncompressed' =? 0)
     end).
Proof.
  cbn zeta. unfold DecompressChain.
  destruct (p_ok _) eqn:Hok; [right|left; auto].
  split; [reflexivity|]. cbn [negb].
  destruct (if negb (size _ =? 0) then _ else _) as [inflated evs].
  exists inflated, evs. split; [reflexivity|].
  destruct inflated as [uncompressed|]; [|cbn; auto].
  destruct (fill_certs _ _ _ _) as [[filled uncompressed'] out_certs'].
  destruct filled; cbn [negb].
  - destruct (size uncompressed' =? 0) eqn:E; cbn; split; auto;
      exists true, uncompressed'; rewrite E; auto.
  - cbn. split; auto. exists false, uncompressed'. auto.
Qed.

End Decode.

Section DecodeProperties.

Context {zlib : Zlib}.

Lemma inflate_block_no_hash_event (in_ : bytes) (entries : list CertEntry)
    (out_certs : list bytes) :
  List.filter is_hash_event (snd (inflate_block in_ entries out_certs)) = [].
Proof.
  unfold inflate_block.
  destruct (size in_ <? 4); [reflexivity|].
  destruct (128 * 1024 <? load_uint32 in_); [reflexivity|].
  destruct (run_inflate_events (drop 4 in_) (load_uint32 in_) entries out_certs)
    as (evs & Hevs & Hno).
  destruct (run_inflate _ _ _ _) as [[[rv z]|] evs']; cbn [snd] in *; subst evs'.
  - assert (List.filter is_hash_event (EvAlloc (load_uint32 in_) :: EvInflateInit :: evs) = []).
    { cbn. induction evs as [|ev evs IH]; [reflexivity|]. cbn in *.
      destruct (is_hash_event ev); [discriminate|]. now apply IH. }
    now destruct (_ || _).
  - cbn. induction evs as [|ev evs IH]; [reflexivity|]. cbn in *.
    destruct (is_hash_event ev); [discriminate|]. now apply IH.
Qed.

Lemma ParseEntries_length (in_ : bytes) (cached_certs : list bytes)
    (out_entries : list CertEntry) (out_certs : list bytes) :
  length (p_certs (ParseEntries in_ cached_certs out_entries out_certs))
  = length (p_entries (ParseEntries in_ cached_certs out_entries out_certs)).
Proof.
  symmetry. eapply Forall2_length, ParseEntries_spec.
Qed.

(** C6. Size ceiling.  When the bytes after the end marker start with a
    4-byte length above 128 KiB the decoder returns false having allocated
    no buffer and called zlib not once: the events of the call are those
    of the parsing.  A length of exactly 128 KiB passes the test: the
    buffer is allocated and [inflateInit] called. *)
Theorem size_ceiling_rejection (in_ : bytes) (cached_certs out_certs : list bytes) :
  let p := ParseEntries in_ cached_certs [] out_certs in
  let r := DecompressChain in_ cached_certs out_certs in
  p_ok p = true -> 4 <= size (p_in p) ->
  (128 * 1024 < load_uint32 (p_in p) ->
   ok r = false /\ events r = p_events p /\
   List.filter is_hash_event (events r) = events r) /\
  (load_uint32 (p_in p) = 128 * 1024 ->
   exists evs : list Event,
     events r = p_events p ++ EvAlloc (128 * 1024) :: EvInflateInit :: evs).
Proof.
  cbn zeta. intros Hp H4.
  destruct (DecompressChain_cases in_ cached_certs out_certs)
    as [[Hp' _]|(_ & inflated & evs & Hinf & Hev & Hfill)]; cbn zeta in *;
    [congruence|].
  destruct (Z.eqb_spec (size (p_in (ParseEntries in_ cached_certs [] out_certs))) 0)
    as [H0|_]; [lia|].
  cbn [negb] in Hinf. unfold inflate_block in Hinf.
  destruct (Z.ltb_spec (size (p_in (ParseEntries in_ cached_certs [] out_certs))) 4)
    as [|_]; [lia|].
  split.
  - intros Hbig. apply Z.ltb_lt in Hbig. rewrite Hbig in Hinf.
    injection Hinf as <- <-. rewrite app_nil_r in Hev.
    destruct Hfill as [Hok _]. repeat split; auto.
    rewrite Hev.
    destruct (ParseEntries_spec in_ cached_certs [] out_certs) as (_ & [->| ->] & _);
      reflexivity.
  - intros Heq. rewrite Heq, Z.ltb_irrefl in Hinf.
    destruct (run_inflate_events
                (drop 4 (p_in (ParseEntries in_ cached_certs [] out_certs)))
                (128 * 1024) (p_entries (ParseEntries in_ cached_certs [] out_certs))
                (p_certs (ParseEntries in_ cached_certs [] out_certs)))
      as (evs' & Hevs & _).
    destruct (run_inflate _ _ _ _) as [[[rv z]|] evs'']; cbn [snd] in Hevs; subst evs''.
    + exists evs'. rewrite Hev.
      destruct (_ || _); apply (f_equal snd) in Hinf; cbn [snd] in Hinf;
        rewrite <- Hinf; reflexivity.
    + exists evs'. rewrite Hev. apply (f_equal snd) in Hinf. cbn [snd] in Hinf.
      rewrite <- Hinf. reflexivity.
Qed.

End DecodeProperties.

Section DecodeOutput.

Context {zlib : Zlib}.

Lemma filter_hash_event_app (evs evs' : list Event) :
  List.filter is_hash_event evs' = [] ->
  List.filter is_hash_event (evs ++ evs') = List.filter is_hash_event evs.
Proof. intros H. now rewrite List.filter_app, H, app_nil_r. Qed.

Lemma DecompressChain_hash_events (in_ : bytes) (cached_certs out_certs : list bytes) :
  List.filter is_hash_event (events (DecompressChain in_ cached_certs out_certs))
  = p_events (ParseEntries in_ cached_certs [] out_certs).
Proof.
  assert (Hp : List.filter is_hash_event (p_events (ParseEntries in_ cached_certs [] out_certs))
               = p_events (ParseEntries in_ cached_certs [] out_certs)).
  { destruct (ParseEntries_spec in_ cached_certs [] out_certs) as (_ & [->| ->] & _);
      reflexivity. }
  destruct (DecompressChain_cases in_ cached_certs out_certs)
    as [[_ ->]|(_ & inflated & evs & Hinf & -> & _)]; cbn zeta in *; [exact Hp|].
  rewrite filter_hash_event_app; [exact Hp|].
  destruct (negb _).
  - pose proof (inflate_block_no_hash_event
                  (p_in (ParseEntries in_ cached_certs [] out_certs))
                  (p_entries (ParseEntries in_ cached_certs [] out_certs))
                  (p_certs (ParseEntries in_ cached_certs [] out_certs))) as H.
    rewrite Hinf in H. exact H.
  - apply (f_equal snd) in Hinf. cbn [snd] in Hinf. now subst evs.
Qed.

Lemma DecompressChain_slots (in_ : bytes) (cached_certs out_certs : list bytes) :
  let p := ParseEntries in_ cached_certs [] out_certs in
  let r := DecompressChain in_ cached_certs out_certs in
  length (certs_out r) = length (p_entries p) /\
  forall (i : nat) (h : Z), p_entries p !! i = Some (CACHED h) ->
    exists (k : nat) (cert : bytes),
      first_with_hash cached_certs h k cert /\ certs_out r !! i = Some cert.
Proof.
  cbn zeta.
  destruct (ParseEntries_spec in_ cached_certs [] out_certs)
    as (Hslots & _ & _ & _); cbn zeta in *.
  assert (Hsame : length (certs_out (DecompressChain in_ cached_certs out_certs))
                  = length (p_certs (ParseEntries in_ cached_certs [] out_certs)) /\
                  forall (i : nat) (h : Z),
                    p_entries (ParseEntries in_ cached_certs [] out_certs) !! i
                    = Some (CACHED h) ->
                    certs_out (DecompressChain in_ cached_certs out_certs) !! i
                    = p_certs (ParseEntries in_ cached_certs [] out_certs) !! i).
  { destruct (DecompressChain_cases in_ cached_certs out_certs)
      as [[Hp ->]|(Hp & inflated & evs & Hinf & Hev & Hfill)]; cbn zeta in *;
      [auto|].
    destruct inflated as [uncompressed|].
    - destruct Hfill as (filled & uncompressed' & Hfill & _).
      apply fill_certs_spec in Hfill. destruct Hfill as (Hlen & _ & Hcached & _).
      split; [exact Hlen|]. intros i h Hi. apply (Hcached _ _ Hi).
    - destruct Hfill as [_ ->]. auto. }
  destruct Hsame as [Hlen Hsame]. split; [now rewrite Hlen, ParseEntries_length|].
  intros i h Hi. rewrite (Hsame _ _ Hi).
  destruct (Forall2_lookup_l _ _ _ _ _ Hslots Hi) as (cert & Hc & k & Hfirst).
  exists k, cert. auto.
Qed.

(** C10. First match in the local cache.  When a call of the decoder
    returns, successful or not, the slot of every [CACHED] entry it has read
    holds the first certificate of the local cache, in the order of the
    cache, whose FNV-1a hash is the hash of the entry.  [HashCerts] is called
    at most once in a call of the decoder; after a successful parse it has
    been called exactly when an entry is [CACHED] (and never on an empty
    cache). *)
Theorem cached_entry_first_match (in_ : bytes) (cached_certs out_certs : list bytes) :
  let p := ParseEntries in_ cached_certs [] out_certs in
  let r := DecompressChain in_ cached_certs out_certs in
  (forall (i : nat) (h : Z), p_entries p !! i = Some (CACHED h) ->
     exists (k : nat) (cert : bytes),
       first_with_hash cached_certs h k cert /\ certs_out r !! i = Some cert) /\
  (length (List.filter is_hash_event (events r)) <= 1)%nat /\
  (p_ok p = true ->
   List.filter is_hash_event (events r)
   = if forallb is_compressed (p_entries p) || (0 =? size cached_certs)
     then [] else [EvHashCerts]).
Proof.
  cbn zeta. rewrite DecompressChain_hash_events.
  destruct (ParseEntries_spec in_ cached_certs [] out_certs)
    as (_ & Hevs & _ & Hok); cbn zeta in *.
  split; [|split].
  - apply DecompressChain_slots.
  - destruct Hevs as [->| ->]; cbn; lia.
  - intros Hp. rewrite Hp in Hok. apply Hok.
Qed.

(** C8, as the source has it.  The output list of a failed call owes
    nothing to what it held before the call, [ParseEntries] clearing it
    first; but it is not empty: it holds one slot for every entry read
    before the failure, with the certificate of the local cache for every
    [CACHED] entry, and is the list [ParseEntries] left when the failure is
    met before the slots of the [COMPRESSED] entries are filled. *)
Theorem failed_decode_output (in_ : bytes) (cached_certs out_certs : list bytes) :
  let p := ParseEntries in_ cached_certs [] out_certs in
  let r := DecompressChain in_ cached_certs out_certs in
  r = DecompressChain in_ cached_certs [] /\
  (ok r = false ->
   length (certs_out r) = length (p_entries p) /\
   (forall (i : nat) (h : Z), p_entries p !! i = Some (CACHED h) ->
      exists (k : nat) (cert : bytes),
        first_with_hash cached_certs h k cert /\ certs_out r !! i = Some cert) /\
   (p_ok p = false -> certs_out r = p_certs p)).
Proof.
  cbn zeta. split; [reflexivity|]. intros _.
  destruct (DecompressChain_slots in_ cached_certs out_certs) as [Hlen Hcached].
  split; [exact Hlen|]. split; [exact Hcached|].
  destruct (DecompressChain_cases in_ cached_certs out_certs)
    as [[Hp ->]|(Hp & inflated & evs & Hinf & Hev & Hfill)]; cbn zeta in *;
    [reflexivity|].
  congruence.
Qed.

End DecodeOutput.

(** C8, refuted as stated.  The frame [broken_frame] is rejected at its
    last byte; the entry before it was resolved against the local cache, and
    the caller, whose list was empty, finds [CERT_A] in it.  The failure is
    that of [ParseEntries], whose list [DecompressChain] leaves as it is. *)
Lemma failed_decode_leaves_partial_output :
  p_ok (ParseEntries broken_frame [CERT_A] [] []) = false /\
  p_certs (ParseEntries broken_frame [CERT_A] [] []) = [CERT_A] /\
  ok (@DecompressChain StoredZlib.impl broken_frame [CERT_A] []) = false /\
  certs_out (@DecompressChain StoredZlib.impl broken_frame [CERT_A] []) = [CERT_A].
Proof. vm_compute. repeat split; reflexivity. Qed.

(** ** Advertised hashes of a set of certificates *)

Lemma load_store_uint64 (h : Z) (rest : bytes) :
  0 <= h < 2 ^ 64 -> load_uint64 (store_uint64 h ++ rest) 0 = h.
Proof.
  intros Hh. unfold load_uint64, store_uint64. rewrite drop_0.
  rewrite take_app_length' by (symmetry; apply length_le_split).
  rewrite le_combine_split. apply Z.mod_small. exact Hh.
Qed.

Lemma load_uint64_skip (a rest : bytes) (j : nat) :
  length a = 8%nat -> load_uint64 (a ++ rest) (8 + j) = load_uint64 rest j.
Proof.
  intros Ha. unfold load_uint64. rewrite <- Ha, drop_app_add'; reflexivity.
Qed.

Lemma length_hashes_of (subset : list bytes) :
  length (hashes_of subset) = (8 * length subset)%nat.
Proof.
  unfold hashes_of. induction subset as [|s subset IH]; [reflexivity|].
  cbn [map concat length]. rewrite length_app, IH. unfold store_uint64.
  rewrite length_le_split. lia.
Qed.

Lemma load_hashes_of (subset : list bytes) (k : nat) (cert : bytes) :
  subset !! k = Some cert ->
  load_uint64 (hashes_of subset) (8 * k) = FNV1a_64_Hash cert.
Proof.
  revert k. induction subset as [|s subset IH]; intros k; [now rewrite lookup_nil|].
  unfold hashes_of. cbn [map concat]. destruct k as [|k].
  - cbn. intros [= ->]. apply load_store_uint64, FNV1a_64_Hash_range.
  - cbn [lookup list_lookup]. intros Hk.
    replace (8 * S k)%nat with (8 + 8 * k)%nat by lia.
    rewrite load_uint64_skip by apply length_le_split. now apply IH.
Qed.

Lemma advertised_hashes_of (subset : list bytes) (h : Z) :
  advertised (hashes_of subset) h
  <-> exists cert : bytes, In cert subset /\ FNV1a_64_Hash cert = h.
Proof.
  unfold advertised. rewrite length_hashes_of. split.
  - intros (k & Hk & Hl).
    destruct (lookup_lt_is_Some_2 subset k) as [cert Hc]; [lia|].
    exists cert. split.
    + apply list_elem_of_In. eapply list_elem_of_lookup_2, Hc.
    + now rewrite <- (load_hashes_of _ _ _ Hc).
  - intros (cert & Hin & Hh). apply list_elem_of_In, list_elem_of_lookup_1 in Hin.
    destruct Hin as [k Hk]. exists k. split.
    + apply lookup_lt_Some in Hk. lia.
    + now rewrite (load_hashes_of _ _ _ Hk).
Qed.




(** ** The frame of a chain *)

Lemma size_store_uint32 (v : Z) : size (store_uint32 v) = 4.
Proof. unfold size, store_uint32. now rewrite length_le_split. Qed.




Lemma uncompressed_size_loop_spec (entries : list CertEntry) (i : nat)
    (certs : list bytes) (uncompressed_size : Z) :
  length certs = (i + length entries)%nat ->
  0 <= uncompressed_size < 2 ^ 64 ->
  uncompressed_size_loop entries i certs uncompressed_size
  = (uncompressed_size + size (payload_of entries (drop i certs))) mod 2 ^ 64.
Proof.
  revert i uncompressed_size.
  induction entries as [|e entries IH]; intros i acc Hlen Hacc.
  - cbn. unfold size. cbn. rewrite Z.add_0_r, Z.mod_small; auto.
  - cbn [length] in Hlen.
    destruct (lookup_lt_is_Some_2 certs i) as [cert Hc]; [lia|].
    rewrite (drop_S _ _ _ Hc). cbn [uncompressed_size_loop].
    rewrite (list_lookup_total_correct _ _ _ Hc).
    destruct e as [|h]; cbn [is_compressed payload_of].
    + rewrite IH by (try lia; unfold to_size_t; apply Z.mod_pos_bound; lia).
      unfold to_size_t. rewrite !size_app, size_store_uint32.
      rewrite wrap_add_l.
      replace (acc + (4 + size cert) mod 2 ^ 64
               + size (payload_of entries (drop (S i) certs)))
        with ((4 + size cert) mod 2 ^ 64
              + (acc + size (payload_of entries (drop (S i) certs)))) by lia.
      rewrite wrap_add_l. f_equal. lia.
    + apply IH; [lia|exact Hacc].
Qed.

Lemma byte_unsigned_of_Z_small (v : Z) :
  0 <= v < 256 -> byte.unsigned (byte.of_Z v) = v.
Proof.
  intros Hv. rewrite byte.unsigned_of_Z. unfold byte.wrap. apply Z.mod_small. lia.
Qed.

Lemma resolves_first (cached_certs : list bytes) (hash : Z) :
  resolves cached_certs hash ->
  exists (k : nat) (cert : bytes), first_with_hash cached_certs hash k cert.
Proof.
  intros Hr. destruct (find_hash hash (HashCerts cached_certs) 0) as [k|] eqn:E.
  - destruct (find_hash_Some _ _ _ _ E) as (k' & cert & _ & Hf). eauto.
  - destruct (find_hash_None _ _ _ E Hr).
Qed.




Lemma load_store_uint32_app (v : Z) (rest : bytes) :
  0 <= v < 2 ^ 32 -> load_uint32 (store_uint32 v ++ rest) = v.
Proof.
  intros Hv. unfold load_uint32, store_uint32.
  rewrite take_app_length' by (symmetry; apply length_le_split).
  rewrite le_combine_split. apply Z.mod_small. exact Hv.
Qed.


(** ** The zlib calls of CompressChain *)

Section Encode.

Context {zlib : Zlib}.





End Encode.

(** ** The buffer of CompressChain *)

Lemma resize_nil (n : Z) : resize n [] = repeat (byte.of_Z 0) (Z.to_nat n).
Proof. unfold resize. rewrite take_nil. cbn. f_equal. lia. Qed.

Lemma write_at_zeros (a data : bytes) (m : nat) :
  write_at (a ++ repeat (byte.of_Z 0) (length data + m)) (size a) data
  = (a ++ data) ++ repeat (byte.of_Z 0) m.
Proof.
  unfold write_at, size. rewrite Nat2Z.id.
  rewrite take_app_length, drop_app_add.
  rewrite repeat_app, drop_app_length' by (now rewrite repeat_length).
  now rewrite <- app_assoc.
Qed.

Lemma frame_layout (ser len32 data : bytes) (compressed_size unused : Z) :
  size len32 = 4 ->
  size data + unused = compressed_size ->
  0 <= unused ->
  size ser + 4 + compressed_size < 2 ^ 64 ->
  let result := resize (to_size_t (size ser + 4 + compressed_size)) [] in
  let result := write_at result 0 ser in
  let result := write_at result (size ser) len32 in
  let result := write_at result (size ser + 4) data in
  resize (to_size_t (size result - unused)) result = ser ++ len32 ++ data.
Proof.
  intros H4 Hsum Hunused Hfit. cbn zeta.
  pose proof (size_nonneg ser). pose proof (size_nonneg data).
  unfold to_size_t. rewrite (Z.mod_small (size ser + 4 + compressed_size)) by lia.
  rewrite resize_nil.
  replace (Z.to_nat (size ser + 4 + compressed_size))
    with (length ser + (length len32 + (length data + Z.to_nat unused)))%nat
    by (unfold size in *; lia).
  pose proof (write_at_zeros [] ser
                (length len32 + (length data + Z.to_nat unused))) as Hw.
  cbn [app] in Hw. change (size []) with 0 in Hw. rewrite Hw. clear Hw.
  rewrite write_at_zeros.
  replace (size ser + 4) with (size (ser ++ len32)) by (rewrite size_app; lia).
  rewrite write_at_zeros.
  set (frame := (ser ++ len32) ++ data).
  assert (Hsize : size (frame ++ repeat (byte.of_Z 0) (Z.to_nat unused)) - unused
                  = size frame).
  { rewrite size_app. unfold size at 2. rewrite repeat_length. lia. }
  rewrite Hsize, Z.mod_small.
  2:{ subst frame. rewrite !size_app. lia. }
  unfold resize, size. rewrite Nat2Z.id, take_app_length.
  rewrite length_app, repeat_length.
  replace (length frame - (length frame + Z.to_nat unused))%nat with O by lia.
  cbn. rewrite app_nil_r. subst frame. now rewrite <- app_assoc.
Qed.

(** ** The round trip *)

Section RoundTrip.

Context {zlib : Zlib}.

Lemma run_inflate_session (stream dict data : bytes) (n : Z)
    (entries : list CertEntry) (out_certs : list bytes) :
  inflate_session_yields stream n dict data ->
  size stream < 2 ^ 32 ->
  ZlibDictForEntries entries out_certs = dict ->
  exists (z : z_stream inflate_state) (evs : list Event),
    run_inflate stream n entries out_certs = (Some (Z_STREAM_END, z), evs) /\
    avail_in z = 0 /\ avail_out z = 0 /\ written z = data.
Proof.
  intros (s0 & c1 & s1 & s2 & c2 & s3 & Hinit & Hfirst & Hdict & Hsecond & Hall & Hdata)
    Hstream Hd.
  pose proof (size_nonneg stream) as Hs0.
  unfold run_inflate. rewrite Hinit.
  change (negb (Z_OK =? Z_OK)) with false. cbv beta iota zeta.
  destruct (call_inflate _ Z_FINISH) as [rv1 z1] eqn:E1.
  unfold call_inflate in E1. cbn [state next_in avail_in avail_out] in E1.
  unfold to_uint32 in E1. rewrite (Z.mod_small (size stream)) in E1 by lia.
  replace (take (Z.to_nat (size stream)) stream) with stream in E1
    by (unfold size; now rewrite Nat2Z.id, firstn_all).
  rewrite Hfirst in E1.
  unfold z_advance in E1. cbn [next_in avail_in written avail_out app] in E1.
  injection E1 as <- <-.
  change (Z_NEED_DICT =? Z_NEED_DICT) with true. cbv beta iota zeta.
  cbn [state next_in avail_in written avail_out].
  rewrite Hd, Hdict.
  change (negb (Z_OK =? Z_OK)) with false. cbv beta iota zeta.
  destruct (call_inflate _ Z_FINISH) as [rv2 z2] eqn:E2.
  unfold call_inflate in E2. cbn [state next_in avail_in written avail_out] in E2.
  change (size []) with 0 in E2. rewrite Z.sub_0_r in E2.
  rewrite take_ge in E2 by (rewrite length_drop; unfold size; lia).
  rewrite Hsecond in E2. unfold z_advance in E2.
  cbn [next_in avail_in written avail_out app] in E2.
  injection E2 as <- <-.
  eexists _, _. split; [reflexivity|]. cbn [avail_in avail_out written].
  unfold size in *. repeat split; lia.
Qed.

Lemma inflate_block_session (stream dict data : bytes) (n : Z)
    (entries : list CertEntry) (out_certs : list bytes) :
  inflate_session_yields stream n dict data ->
  0 <= n <= 128 * 1024 ->
  size stream < 2 ^ 32 ->
  ZlibDictForEntries entries out_certs = dict ->
  fst (inflate_block (store_uint32 n ++ stream) entries out_certs) = Some data.
Proof.
  intros Hsession Hn Hstream Hd.
  assert (Hdata : size data = n) by (destruct Hsession as (? & ? & ? & ? & ? & ? & H); apply H).
  destruct (run_inflate_session _ _ _ _ _ _ Hsession Hstream Hd)
    as (z & evs & Hrun & Hin & Hout & Hw).
  pose proof (size_nonneg stream) as Hs0.
  unfold inflate_block.
  rewrite size_app, size_store_uint32.
  destruct (Z.ltb_spec (4 + size stream) 4) as [|_]; [lia|].
  rewrite load_store_uint32_app by lia.
  destruct (Z.ltb_spec (128 * 1024) n) as [|_]; [lia|].
  assert (Hdrop : drop 4 (store_uint32 n ++ stream) = stream).
  { unfold store_uint32. apply drop_app_length'.
    first [apply length_le_split | symmetry; apply length_le_split]. }
  rewrite Hdrop. cbv beta iota zeta. rewrite Hrun, Hin, Hout, Hw.
  change (negb (Z_STREAM_END =? Z_STREAM_END)) with false.
  cbn [Z.eqb negb orb fst]. f_equal. apply write_at_whole. unfold size in Hdata. lia.
Qed.




End RoundTrip.

Section RoundTripTheorem.

Context {zlib : Zlib}.



End RoundTripTheorem.

(** ** The reference implementation obeys the law of zlib *)





(** ** The claims at concrete inputs *)


(** Two certificates of the chain with one hash do not round-trip either:
    the peer holding the first, the second is sent as the hash they share,
    and [DecompressChain] returns true with the first in its place. *)
Lemma colliding_certificates_confused :
  colliding_a <> colliding_b /\
  FNV1a_64_Hash colliding_a = FNV1a_64_Hash colliding_b /\
  let frame := @CompressChain StoredZlib.impl [colliding_a; colliding_b]
                 (hashes_of [colliding_a]) in
  let r := @DecompressChain StoredZlib.impl frame [colliding_a] [] in
  ok r = true /\ certs_out r = [colliding_a; colliding_a].
Proof.
  split; [|vm_compute; repeat split; reflexivity].
  intros H. apply (f_equal (map byte.unsigned)) in H. vm_compute in H. discriminate.
Qed.

(** A certificate of no byte at all is not sent either, zlib refusing an
    empty input: [CompressChain] returns the empty string, which
    [DecompressChain] rejects. *)
Lemma empty_certificate_not_sent :
  @CompressChain StoredZlib.impl [[]] (hashes_of []) = [] /\
  ok (@DecompressChain StoredZlib.impl [] [] []) = false.
Proof. vm_compute. split; reflexivity. Qed.

(** The end-to-end example of the specification. *)
Example end_to_end :
  MatchCerts [CERT_A; CERT_B] (hashes_of [CERT_A])
  = [CACHED (FNV1a_64_Hash CERT_A); COMPRESSED] /\
  ok (@DecompressChain StoredZlib.impl example_frame [CERT_A] []) = true /\
  certs_out (@DecompressChain StoredZlib.impl example_frame [CERT_A] [])
  = [CERT_A; CERT_B].
Proof. vm_compute. repeat split; reflexivity. Qed.

Lemma size_ceiling_rejection_witness :
  let p := ParseEntries over_ceiling_frame [] [] [] in
  let r := @DecompressChain StoredZlib.impl over_ceiling_frame [] [] in
  (128 * 1024 < load_uint32 (p_in p) ->
   ok r = false /\ events r = p_events p /\
   List.filter is_hash_event (events r) = events r) /\
  (load_uint32 (p_in p) = 128 * 1024 ->
   exists evs : list Event,
     events r = p_events p ++ EvAlloc (128 * 1024) :: EvInflateInit :: evs).
Proof.
  apply (@size_ceiling_rejection StoredZlib.impl over_ceiling_frame [] []).
  - vm_compute. reflexivity.
  - vm_compute. discriminate.
Defined.

(** The two sides of the ceiling, evaluated: one byte above 128 KiB nothing
    is allocated; at 128 KiB the buffer is allocated and zlib called. *)
Example ceiling_sides :
  events (@DecompressChain StoredZlib.impl over_ceiling_frame [] []) = [] /\
  events (@DecompressChain StoredZlib.impl at_ceiling_frame [] [])
  = [EvAlloc (128 * 1024); EvInflateInit; EvInflate].
Proof. vm_compute. split; reflexivity. Qed.

Lemma cached_entry_first_match_witness :
  forallb is_compressed (p_entries (ParseEntries example_frame [CERT_A; CERT_A] [] []))
  = false /\
  List.filter is_hash_event
    (events (@DecompressChain StoredZlib.impl example_frame [CERT_A; CERT_A] []))
  = [EvHashCerts].
Proof.
  split; [vm_compute; reflexivity|].
  rewrite (proj2 (proj2 (@cached_entry_first_match StoredZlib.impl example_frame
                           [CERT_A; CERT_A] [])));
    vm_compute; reflexivity.
Defined.

Lemma failed_decode_output_witness :
  length (certs_out (@DecompressChain StoredZlib.impl broken_frame [CERT_A] []))
  = length (p_entries (ParseEntries broken_frame [CERT_A] [] [])).
Proof.
  apply (proj2 (@failed_decode_output StoredZlib.impl broken_frame [CERT_A] [])).
  vm_compute. reflexivity.
Defined.

Lemma MatchCerts_cache_matching_witness :
  MatchCerts [CERT_A; CERT_B] (hashes_of [CERT_A]) !! 0%nat
  = Some (CACHED (FNV1a_64_Hash CERT_A)).
Proof.
  apply (proj2 (proj2 (MatchCerts_cache_matching [CERT_A; CERT_B] (hashes_of [CERT_A])))).
  - discriminate.
  - reflexivity.
  - reflexivity.
  - exists O. split; [vm_compute; lia|]. vm_compute. reflexivity.
Defined.


(** * Further properties of the codec *)

(** ** The wire form of the entries *)

Lemma store_load_uint64 (in_ : bytes) :
  8 <= size in_ -> store_uint64 (load_uint64 in_ 0) ++ drop 8 in_ = in_.
Proof.
  intros H. unfold store_uint64, load_uint64, size in *. rewrite drop_0.
  pose proof (split_le_combine (take 8 in_)) as H1.
  rewrite length_take in H1.
  replace (8 `min` length in_)%nat with 8%nat in H1 by lia.
  rewrite H1. apply take_drop.
Qed.

Lemma load_uint64_range (s : bytes) (j : nat) : 0 <= load_uint64 s j < 2 ^ 64.
Proof.
  unfold load_uint64. pose proof (le_combine_bound (take 8 (drop j s))) as H.
  rewrite length_take in H.
  assert (2 ^ (8 * Z.of_nat (8 `min` length (drop j s))) <= 2 ^ 64).
  { apply Z.pow_le_mono_r; lia. }
  lia.
Qed.

Lemma parsed_serialize (cached_certs : list bytes) (in_ : bytes)
    (entries : list CertEntry) (certs : list bytes) (rest : bytes) :
  parsed cached_certs in_ entries certs rest ->
  in_ = SerializeCertEntries entries ++ rest /\ Forall hash_in_range entries.
Proof.
  induction 1 as [b rest Hb|b in_ es cs rest Hb Hp [IH1 IH2]
                 |b in_ k cert es cs rest Hb Hlen Hf Hp [IH1 IH2]].
  - split; [|constructor]. cbn. f_equal.
    apply byte.unsigned_inj. rewrite Hb. now rewrite byte_unsigned_of_Z_small.
  - split; [|constructor; [exact I|exact IH2]].
    cbn [SerializeCertEntries wire_type app]. rewrite <- IH1. f_equal.
    apply byte.unsigned_inj. rewrite Hb. now rewrite byte_unsigned_of_Z_small.
  - split; [|constructor; [apply load_uint64_range|exact IH2]].
    cbn [SerializeCertEntries wire_type app]. rewrite <- app_assoc, <- IH1.
    rewrite store_load_uint64 by exact Hlen. f_equal.
    apply byte.unsigned_inj. rewrite Hb. now rewrite byte_unsigned_of_Z_small.
Qed.

Lemma serialized_parsed (cached_certs : list bytes) (entries : list CertEntry)
    (rest : bytes) :
  Forall (readable cached_certs) entries ->
  exists certs : list bytes,
    parsed cached_certs (SerializeCertEntries entries ++ rest) entries certs rest.
Proof.
  induction 1 as [|e entries He Hall [certs IH]].
  - exists []. cbn. constructor. now apply byte_unsigned_of_Z_small.
  - destruct e as [|h]; cbn [SerializeCertEntries wire_type app].
    + exists ([] :: certs). constructor; [now apply byte_unsigned_of_Z_small|exact IH].
    + destruct He as [Hr Hres].
      destruct (resolves_first _ _ Hres) as (k & cert & Hfirst).
      exists (cert :: certs). rewrite <- app_assoc.
      pose proof (load_store_uint64 h (SerializeCertEntries entries ++ rest) Hr) as Hload.
      pose proof (parsed_cached cached_certs (byte.of_Z 2)
                    (store_uint64 h ++ SerializeCertEntries entries ++ rest)
                    k cert entries certs rest) as Hp.
      rewrite Hload in Hp. apply Hp.
      * now apply byte_unsigned_of_Z_small.
      * rewrite size_app. unfold store_uint64, size. rewrite length_le_split. lia.
      * exact Hfirst.
      * unfold store_uint64.
        rewrite drop_app_length'
          by first [apply length_le_split | symmetry; apply length_le_split].
        exact IH.
Qed.

Lemma serialized_malformed (cached_certs : list bytes) (entries : list CertEntry)
    (rest : bytes) :
  Forall hash_in_range entries ->
  malformed cached_certs (SerializeCertEntries entries ++ rest) ->
  exists h : Z, In (CACHED h) entries /\ ~ resolves cached_certs h.
Proof.
  induction 1 as [|e entries He Hall IH]; intros Hm.
  - cbn in Hm. inversion Hm; subst;
      rewrite byte_unsigned_of_Z_small in *; lia.
  - destruct e as [|h]; cbn [SerializeCertEntries wire_type app] in Hm.
    + inversion Hm; subst; rewrite byte_unsigned_of_Z_small in *; try lia.
      destruct IH as (h & Hin & Hno); [assumption|]. exists h. split; [now right|exact Hno].
    + rewrite <- app_assoc in Hm. cbn in He.
      pose proof (load_store_uint64 h (SerializeCertEntries entries ++ rest) He) as Hload.
      assert (Hsize : 8 <= size (store_uint64 h ++ SerializeCertEntries entries ++ rest)).
      { rewrite size_app. unfold store_uint64, size. rewrite length_le_split. lia. }
      assert (Hdrop : drop 8 (store_uint64 h ++ SerializeCertEntries entries ++ rest)
                      = SerializeCertEntries entries ++ rest).
      { unfold store_uint64. apply drop_app_length'.
        first [apply length_le_split | symmetry; apply length_le_split]. }
      revert Hload Hsize Hdrop Hm.
      generalize (store_uint64 h ++ SerializeCertEntries entries ++ rest).
      intros tl Hload Hsize Hdrop Hm.
      inversion Hm; subst; rewrite byte_unsigned_of_Z_small in *; try lia.
      * eexists. split; [left; reflexivity|assumption].
      * match goal with H : malformed _ (drop 8 _) |- _ =>
          rewrite Hdrop in H; destruct (IH H) as (h' & Hin & Hno) end.
        exists h'. split; [now right|exact Hno].
Qed.

Lemma byte_of_Z_small_inj (a b : Z) :
  0 <= a < 256 -> 0 <= b < 256 -> byte.of_Z a = byte.of_Z b -> a = b.
Proof.
  intros Ha Hb H. apply (f_equal byte.unsigned) in H.
  now rewrite !byte_unsigned_of_Z_small in H.
Qed.

Lemma store_uint64_inj (h h' : Z) :
  0 <= h < 2 ^ 64 -> 0 <= h' < 2 ^ 64 -> store_uint64 h = store_uint64 h' -> h = h'.
Proof.
  unfold store_uint64. intros Hh Hh' H. apply (f_equal le_combine) in H.
  rewrite !le_combine_split in H. rewrite !Z.mod_small in H; auto.
Qed.

Lemma SerializeCertEntries_app_inj (entries entries' : list CertEntry)
    (rest rest' : bytes) :
  Forall hash_in_range entries -> Forall hash_in_range entries' ->
  SerializeCertEntries entries ++ rest = SerializeCertEntries entries' ++ rest' ->
  entries = entries' /\ rest = rest'.
Proof.
  intros Hr. revert entries'.
  induction Hr as [|e entries He Hr IH]; intros entries' Hr' Heq;
    destruct Hr' as [|e' entries' He' Hr'].
  - cbn in Heq. now injection Heq as ->.
  - exfalso. destruct e'; cbn in Heq; injection Heq as Hb _;
      apply byte_of_Z_small_inj in Hb; lia.
  - exfalso. destruct e; cbn in Heq; injection Heq as Hb _;
      apply byte_of_Z_small_inj in Hb; lia.
  - destruct e as [|h], e' as [|h']; cbn [SerializeCertEntries wire_type app] in Heq.
    + injection Heq as Heq. destruct (IH _ Hr' Heq) as [-> ->]. auto.
    + exfalso. injection Heq as Hb _. apply byte_of_Z_small_inj in Hb; lia.
    + exfalso. injection Heq as Hb _. apply byte_of_Z_small_inj in Hb; lia.
    + assert (Hl : length (store_uint64 h) = length (store_uint64 h'))
        by (unfold store_uint64; now rewrite !length_le_split).
      remember (store_uint64 h) as a eqn:Ea.
      remember (store_uint64 h') as a' eqn:Ea'.
      injection Heq as Heq. rewrite <- !app_assoc in Heq.
      apply app_inj_1 in Heq; [|exact Hl].
      destruct Heq as [Hh Heq]. subst a a'.
      apply store_uint64_inj in Hh; auto. subst h'.
      destruct (IH _ Hr' Heq) as [-> ->]. auto.
Qed.

Lemma parsed_readable (cached_certs : list bytes) (in_ : bytes)
    (entries : list CertEntry) (certs : list bytes) (rest : bytes) :
  parsed cached_certs in_ entries certs rest ->
  Forall (readable cached_certs) entries.
Proof.
  induction 1 as [b rest Hb|b in_ es cs rest Hb Hp IH
                 |b in_ k cert es cs rest Hb Hlen Hf Hp IH].
  - constructor.
  - constructor; [exact I|exact IH].
  - constructor; [|exact IH]. split; [apply load_uint64_range|].
    destruct Hf as (Hk & Hh & _). exists cert. split; [|exact Hh].
    eapply list_elem_of_In, list_elem_of_lookup_2, Hk.
Qed.

(** X1. Reading back what [SerializeCertEntries] writes.  For entries whose
    hashes are 64-bit values, [ParseEntries] applied to their serialised form
    followed by any bytes succeeds if and only if every hash is the hash of
    a certificate of the local cache.  When it succeeds it returns these
    entries, one slot per entry, and leaves the bytes that follow; when it
    fails, some [CACHED] entry has a hash that no certificate of the cache
    has. *)
Theorem ParseEntries_of_serialized (entries : list CertEntry)
    (cached_certs : list bytes) (rest : bytes)
    (out_entries : list CertEntry) (out_certs : list bytes) :
  Forall hash_in_range entries ->
  let r := ParseEntries (SerializeCertEntries entries ++ rest) cached_certs
             out_entries out_certs in
  (p_ok r = true <-> Forall (readable cached_certs) entries) /\
  (p_ok r = true ->
   p_entries r = entries /\ p_in r = rest /\
   length (p_certs r) = length entries) /\
  (p_ok r = false ->
   exists h : Z, In (CACHED h) entries /\ ~ resolves cached_certs h).
Proof.
  intros Hrange. cbn zeta.
  assert (Hsuff : Forall (readable cached_certs) entries ->
                  p_ok (ParseEntries (SerializeCertEntries entries ++ rest) cached_certs
                          out_entries out_certs) = true /\
                  p_entries (ParseEntries (SerializeCertEntries entries ++ rest)
                               cached_certs out_entries out_certs) = entries /\
                  p_in (ParseEntries (SerializeCertEntries entries ++ rest)
                          cached_certs out_entries out_certs) = rest).
  { intros Hall.
    destruct (serialized_parsed cached_certs entries rest Hall) as [certs Hp].
    destruct (ParseEntries_parsed _ _ out_entries _ out_certs _ _ Hp)
      as (Hok & Hin & He & _). auto. }
  assert (Hnec : p_ok (ParseEntries (SerializeCertEntries entries ++ rest) cached_certs
                         out_entries out_certs) = true ->
                 Forall (readable cached_certs) entries).
  { intros Hok.
    destruct (ParseEntries_spec (SerializeCertEntries entries ++ rest) cached_certs
                out_entries out_certs) as (_ & _ & _ & Hp).
    cbn zeta in Hp. rewrite Hok in Hp. destruct Hp as [Hp _].
    pose proof (parsed_readable _ _ _ _ _ Hp) as Hread.
    apply parsed_serialize in Hp. destruct Hp as [Heq Hrange'].
    apply SerializeCertEntries_app_inj in Heq; [|exact Hrange|exact Hrange'].
    destruct Heq as [He _]. now rewrite He. }
  split; [|split].
  - split; [exact Hnec|]. intros Hall. apply (Hsuff Hall).
  - intros Hok. destruct (Hsuff (Hnec Hok)) as (_ & He & Hin).
    split; [exact He|]. split; [exact Hin|].
    now rewrite ParseEntries_length, He.
  - intros Hfail. apply ParseEntries_ok_iff in Hfail.
    now apply serialized_malformed with (rest := rest).
Qed.

Lemma ParseEntries_of_serialized_witness :
  let r := ParseEntries
             (SerializeCertEntries [COMPRESSED; CACHED (FNV1a_64_Hash CERT_A)]
              ++ [byte.of_Z 9]) [CERT_B; CERT_A] [] [] in
  (p_ok r = true <->
   Forall (readable [CERT_B; CERT_A]) [COMPRESSED; CACHED (FNV1a_64_Hash CERT_A)]) /\
  (p_ok r = true ->
   p_entries r = [COMPRESSED; CACHED (FNV1a_64_Hash CERT_A)] /\
   p_in r = [byte.of_Z 9] /\ length (p_certs r) = 2%nat) /\
  (p_ok r = false ->
   exists h : Z, In (CACHED h) [COMPRESSED; CACHED (FNV1a_64_Hash CERT_A)] /\
                 ~ resolves [CERT_B; CERT_A] h).
Proof.
  apply (ParseEntries_of_serialized [COMPRESSED; CACHED (FNV1a_64_Hash CERT_A)]
           [CERT_B; CERT_A] [byte.of_Z 9] [] []).
  constructor; [exact I|]. constructor; [|constructor].
  apply FNV1a_64_Hash_range.
Defined.

(** X2. What [ParseEntries] consumes.  When [ParseEntries] succeeds, the
    bytes it has taken from the input are the serialised form of the entries
    it returns, whose hashes are 64-bit values, and [*in_out] is the rest of
    the input; when it fails, [*in_out] is the input, untouched. *)
Theorem ParseEntries_consumed (in_ : bytes) (cached_certs : list bytes)
    (out_entries : list CertEntry) (out_certs : list bytes) :
  let r := ParseEntries in_ cached_certs out_entries out_certs in
  (p_ok r = true ->
   in_ = SerializeCertEntries (p_entries r) ++ p_in r /\
   Forall hash_in_range (p_entries r)) /\
  (p_ok r = false -> p_in r = in_).
Proof.
  cbn zeta.
  destruct (ParseEntries_spec in_ cached_certs out_entries out_certs) as (_ & _ & _ & H).
  cbn zeta in H. destruct (p_ok _).
  - split; [|discriminate]. intros _. destruct H as [Hp _].
    now apply parsed_serialize in Hp.
  - split; [discriminate|]. intros _. apply H.
Qed.

Lemma ParseEntries_consumed_witness :
  example_frame
  = SerializeCertEntries (p_entries (ParseEntries example_frame [CERT_A] [] []))
    ++ p_in (ParseEntries example_frame [CERT_A] [] []) /\
  Forall hash_in_range (p_entries (ParseEntries example_frame [CERT_A] [] [])).
Proof.
  apply (proj1 (ParseEntries_consumed example_frame [CERT_A] [] [])).
  vm_compute. reflexivity.
Defined.


(** X3. The entries are written prefix-free.  Two lists of entries, with
    hashes of 64 bits, whose serialised forms followed by any bytes are the
    same string are the same list, followed by the same bytes: the end of
    an entry list in a frame is never in doubt. *)
Theorem SerializeCertEntries_prefix_free (entries entries' : list CertEntry)
    (rest rest' : bytes) :
  Forall hash_in_range entries -> Forall hash_in_range entries' ->
  SerializeCertEntries entries ++ rest = SerializeCertEntries entries' ++ rest' ->
  entries = entries' /\ rest = rest'.
Proof. apply SerializeCertEntries_app_inj. Qed.

Lemma SerializeCertEntries_prefix_free_witness :
  [CACHED 7; COMPRESSED] = [CACHED 7; COMPRESSED] /\ [byte.of_Z 1] = [byte.of_Z 1].
Proof.
  apply (SerializeCertEntries_prefix_free [CACHED 7; COMPRESSED] [CACHED 7; COMPRESSED]
           [byte.of_Z 1] [byte.of_Z 1]).
  - repeat constructor; cbn; lia.
  - repeat constructor; cbn; lia.
  - reflexivity.
Defined.

(** ** Advertised hashes as a set *)

(** X4. Only the set of the advertised hashes counts.  Two advertised
    strings, both non-empty and of a length that is a multiple of 8, that
    hold the same 8-byte values, in whatever order and however often, make
    [MatchCerts] return the same entries: which of several equal advertised
    hashes is met first cannot be seen in the result. *)
Theorem MatchCerts_advertised_set (certs : list bytes) (hashes hashes' : bytes) :
  hashes <> [] -> hashes' <> [] ->
  size hashes mod 8 = 0 -> size hashes' mod 8 = 0 ->
  (forall h : Z, advertised hashes h <-> advertised hashes' h) ->
  MatchCerts certs hashes = MatchCerts certs hashes'.
Proof.
  intros Hne Hne' Hm Hm' Hsame. unfold MatchCerts.
  rewrite !MatchCerts_loop_map. cbn [app]. apply map_ext. intros cert.
  rewrite Hm, Hm'. cbn [Z.eqb andb].
  replace (size hashes =? 0) with false
    by (symmetry; apply Z.eqb_neq; now rewrite size_nil_iff).
  replace (size hashes' =? 0) with false
    by (symmetry; apply Z.eqb_neq; now rewrite size_nil_iff).
  cbn [negb]. unfold match_cert.
  destruct (hash_scan (length hashes) _ hashes 0) eqn:E,
           (hash_scan (length hashes') _ hashes' 0) eqn:E'; try reflexivity; exfalso.
  - apply hash_scan_advertised, Hsame, hash_scan_advertised in E. congruence.
  - apply hash_scan_advertised, Hsame, hash_scan_advertised in E'. congruence.
Qed.

Lemma MatchCerts_advertised_set_witness :
  MatchCerts [CERT_B; CERT_A; colliding_a] (hashes_of [CERT_A; CERT_B])
  = MatchCerts [CERT_B; CERT_A; colliding_a] (hashes_of [CERT_B; CERT_A; CERT_B]).
Proof.
  apply MatchCerts_advertised_set.
  - discriminate.
  - discriminate.
  - reflexivity.
  - reflexivity.
  - intros h. rewrite !advertised_hashes_of.
    split; intros (cert & Hin & Hh); exists cert; (split; [|exact Hh]);
      cbn [In] in *; tauto.
Defined.

(** ** The dictionary *)

Lemma cached_certs_of_agree (entries : list CertEntry) (certs certs' : list bytes) :
  length entries = length certs -> length entries = length certs' ->
  (forall (i : nat) (h : Z), entries !! i = Some (CACHED h) -> certs !! i = certs' !! i) ->
  cached_certs_of entries certs = cached_certs_of entries certs'.
Proof.
  revert certs certs'.
  induction entries as [|e entries IH]; intros [|c certs] [|c' certs'] Hl Hl' Hsame;
    try discriminate; [reflexivity|].
  cbn [cached_certs_of]. cbn [length] in Hl, Hl'.
  rewrite (IH certs certs') by
    (try lia; intros i h Hi; apply (Hsame (S i) h Hi)).
  destruct e as [|h]; cbn [is_compressed]; [reflexivity|].
  specialize (Hsame O h eq_refl). cbn in Hsame. now injection Hsame as ->.
Qed.

(** X5. The dictionary rests on the cached certificates alone.  For equal
    lengths, two certificate lists that agree at the index of every [CACHED]
    entry give the same dictionary, whatever they hold at the indices of the
    [COMPRESSED] entries: the decoder, whose list has empty slots there,
    builds the dictionary of the encoder. *)
Theorem ZlibDictForEntries_cached_only (entries : list CertEntry)
    (certs certs' : list bytes) :
  length entries = length certs -> length entries = length certs' ->
  (forall (i : nat) (h : Z), entries !! i = Some (CACHED h) -> certs !! i = certs' !! i) ->
  ZlibDictForEntries entries certs = ZlibDictForEntries entries certs'.
Proof.
  intros Hl Hl' Hsame.
  rewrite !ZlibDictForEntries_cached by assumption.
  now rewrite (cached_certs_of_agree entries certs certs').
Qed.

Lemma ZlibDictForEntries_cached_only_witness :
  ZlibDictForEntries [CACHED 1; COMPRESSED] [CERT_A; CERT_B]
  = ZlibDictForEntries [CACHED 1; COMPRESSED] [CERT_A; []].
Proof.
  apply ZlibDictForEntries_cached_only.
  - reflexivity.
  - reflexivity.
  - intros [|[|i]] h Hi; try discriminate. reflexivity.
Defined.

Lemma size_kCommonCertSubstrings : size kCommonCertSubstrings = 1484.
Proof. vm_compute. reflexivity. Qed.

Lemma zlib_dict_size_loop_spec (n : nat) (entries : list CertEntry)
    (certs : list bytes) (zlib_dict_size : Z) :
  length entries = length certs ->
  (n <= length certs)%nat ->
  zlib_dict_size_loop n entries certs zlib_dict_size mod 2 ^ 64
  = (zlib_dict_size
     + size (concat (rev (cached_certs_of (take n entries) (take n certs))))) mod 2 ^ 64.
Proof.
  intros Hlen. revert zlib_dict_size. induction n as [|i IH]; intros acc Hn.
  - cbn. unfold size. cbn. now rewrite Z.add_0_r.
  - cbn [zlib_dict_size_loop].
    destruct (lookup_lt_is_Some_2 entries i) as [e He]; [lia|].
    destruct (lookup_lt_is_Some_2 certs i) as [cert Hc]; [lia|].
    rewrite (take_S_r _ _ _ He), (take_S_r _ _ _ Hc).
    rewrite cached_certs_of_snoc by (rewrite !length_take; lia).
    rewrite (list_lookup_total_correct _ _ _ He), (list_lookup_total_correct _ _ _ Hc).
    rewrite IH by lia. rewrite rev_app_distr, concat_app, size_app.
    destruct (is_compressed e); cbn [negb rev concat app].
    + change (size []) with 0. f_equal; lia.
    + unfold to_size_t. rewrite wrap_add_l, app_nil_r. f_equal; lia.
Qed.

(** X6. The size check of the dictionary.  For entries and certificates of
    equal length the size [ZlibDictForEntries] computes before it builds
    the dictionary is the size of the dictionary it builds (its
    [QUICHE_DCHECK_EQ] holds) whenever that size fits [size_t]; and the
    dictionary, which ends with the 1484 bytes of the static table, is
    never empty. *)
Theorem zlib_dict_size_checked (entries : list CertEntry) (certs : list bytes) :
  length entries = length certs ->
  1484 <= size (ZlibDictForEntries entries certs) /\
  (size (ZlibDictForEntries entries certs) < 2 ^ 64 ->
   zlib_dict_size entries certs = size (ZlibDictForEntries entries certs)).
Proof.
  intros Hlen. rewrite ZlibDictForEntries_cached by exact Hlen.
  rewrite size_app, size_kCommonCertSubstrings.
  pose proof (size_nonneg (concat (rev (cached_certs_of entries certs)))) as H0.
  split; [lia|]. intros Hfit.
  unfold zlib_dict_size, to_size_t. rewrite size_kCommonCertSubstrings.
  rewrite <- wrap_add_l, zlib_dict_size_loop_spec by lia.
  rewrite <- Hlen at 1. rewrite !firstn_all, wrap_add_l, Z.add_0_l.
  apply Z.mod_small. lia.
Qed.

Lemma zlib_dict_size_checked_witness :
  1484 <= size (ZlibDictForEntries [CACHED 1; COMPRESSED] [CERT_A; CERT_B]) /\
  (size (ZlibDictForEntries [CACHED 1; COMPRESSED] [CERT_A; CERT_B]) < 2 ^ 64 ->
   zlib_dict_size [CACHED 1; COMPRESSED] [CERT_A; CERT_B]
   = size (ZlibDictForEntries [CACHED 1; COMPRESSED] [CERT_A; CERT_B])).
Proof.
  apply (zlib_dict_size_checked [CACHED 1; COMPRESSED] [CERT_A; CERT_B]).
  reflexivity.
Defined.

(** ** Chains that need no compression *)

Lemma match_cert_advertised (hashes : bytes) (cert : bytes) :
  advertised hashes (FNV1a_64_Hash cert) ->
  match_cert true hashes cert = CACHED (FNV1a_64_Hash cert).
Proof.
  intros Ha. unfold match_cert. apply hash_scan_advertised in Ha. now rewrite Ha.
Qed.

Lemma uncompressed_size_loop_cached (entries : list CertEntry) (i : nat)
    (certs : list bytes) (uncompressed_size : Z) :
  Forall (fun e => is_compressed e = false) entries ->
  uncompressed_size_loop entries i certs uncompressed_size = uncompressed_size.
Proof.
  intros Hall. revert i uncompressed_size.
  induction Hall as [|e entries He Hall IH]; intros i acc; [reflexivity|].
  cbn [uncompressed_size_loop]. rewrite He. apply IH.
Qed.

Section EncodeCached.

Context {zlib : Zlib}.

(** X7. A chain the peer holds entirely.  When the advertised string is
    valid and advertises the hash of every certificate of the chain,
    [CompressChain] returns, whatever zlib does, exactly the entry list: a
    [CACHED] entry with its hash for each certificate and the end marker,
    [9 * n + 1] bytes for [n] certificates, with no length field and no
    compressed data.  The empty chain gives the single byte 0. *)
Theorem CompressChain_all_cached (certs : list bytes) (hashes : bytes) :
  hashes <> [] -> size hashes mod 8 = 0 ->
  Forall (fun cert => advertised hashes (FNV1a_64_Hash cert)) certs ->
  sizeof_CertEntry * size certs < 2 ^ 64 ->
  CompressChain certs hashes
  = SerializeCertEntries (map (fun cert => CACHED (FNV1a_64_Hash cert)) certs) /\
  size (CompressChain certs hashes) = 9 * size certs + 1.
Proof.
  intros Hne Hm Hall Hfit.
  assert (He : MatchCerts certs hashes
               = map (fun cert => CACHED (FNV1a_64_Hash cert)) certs).
  { unfold MatchCerts. rewrite MatchCerts_loop_map. cbn [app].
    rewrite Hm. cbn [Z.eqb andb].
    replace (size hashes =? 0) with false
      by (symmetry; apply Z.eqb_neq; now rewrite size_nil_iff).
    cbn [negb]. clear Hfit.
    induction Hall as [|cert certs Hc Hall IH]; [reflexivity|].
    cbn [map]. now rewrite match_cert_advertised, IH. }
  assert (Hs : serialized_size (map (fun cert => CACHED (FNV1a_64_Hash cert)) certs)
               = 9 * size certs + 1).
  { clear. unfold size. induction certs as [|cert certs IH]; [reflexivity|].
    cbn [map serialized_size is_compressed length]. rewrite IH. lia. }
  assert (Hc : CompressChain certs hashes
               = SerializeCertEntries (map (fun cert => CACHED (FNV1a_64_Hash cert)) certs)).
  { unfold CompressChain. cbv zeta. rewrite He.
    rewrite uncompressed_size_loop_cached
      by (apply List.Forall_forall; intros e He'; apply in_map_iff in He';
          destruct He' as (c & <- & _); reflexivity).
    cbn [Z.eqb]. rewrite resize_nil. apply write_at_whole.
    rewrite CertEntriesSize_wraps, Hs.
    pose proof (SerializeCertEntries_size
                  (map (fun cert => CACHED (FNV1a_64_Hash cert)) certs)) as Hsz.
    rewrite Hs in Hsz. unfold size in Hsz.
    pose proof (size_nonneg certs) as H0. unfold sizeof_CertEntry in Hfit.
    rewrite Z.mod_small by lia. unfold size in *. lia. }
  split; [exact Hc|]. rewrite Hc, SerializeCertEntries_size. exact Hs.
Qed.

End EncodeCached.

Lemma CompressChain_all_cached_witness :
  CompressChain (zlib := StoredZlib.impl) [CERT_A; CERT_B] (hashes_of [CERT_B; CERT_A])
  = SerializeCertEntries (map (fun cert => CACHED (FNV1a_64_Hash cert)) [CERT_A; CERT_B]) /\
  size (CompressChain (zlib := StoredZlib.impl) [CERT_A; CERT_B] (hashes_of [CERT_B; CERT_A]))
  = 9 * size [CERT_A; CERT_B] + 1.
Proof.
  apply (CompressChain_all_cached (zlib := StoredZlib.impl)).
  - discriminate.
  - reflexivity.
  - repeat constructor; apply advertised_hashes_of.
    + exists CERT_A. split; [right; now left|reflexivity].
    + exists CERT_B. split; [now left|reflexivity].
  - vm_compute. reflexivity.
Defined.

(** ** Frames that end at the end marker *)

Lemma fill_certs_nil (entries : list CertEntry) (i : nat) (out_certs : list bytes) :
  fill_certs entries i [] out_certs
  = (forallb (fun e => negb (is_compressed e)) entries, [], out_certs).
Proof.
  revert i. induction entries as [|[|h] entries IH]; intros i; try reflexivity.
  cbn [fill_certs forallb is_compressed negb andb]. apply IH.
Qed.

Section DecodeCached.

Context {zlib : Zlib}.

(** X8. A frame that ends at the end marker.  For entries whose hashes are
    64-bit values, [DecompressChain] applied to their serialised form alone
    succeeds exactly when every entry is [CACHED] with the hash of a
    certificate of the local cache; it then returns one certificate of the
    cache with that hash per entry.  In either case it calls no zlib
    function and allocates no buffer: a [COMPRESSED] entry with no payload
    behind it is rejected. *)
Theorem DecompressChain_entries_only (entries : list CertEntry)
    (cached_certs out_certs : list bytes) :
  Forall hash_in_range entries ->
  let r := DecompressChain (SerializeCertEntries entries) cached_certs out_certs in
  (ok r = true <->
   Forall (fun e => is_compressed e = false /\ readable cached_certs e) entries) /\
  (ok r = true -> Forall2 (slot_of cached_certs) entries (certs_out r)) /\
  Forall (fun ev => ev = EvHashCerts) (events r).
Proof.
  intros Hrange. cbn zeta.
  pose proof (ParseEntries_spec (SerializeCertEntries entries) cached_certs [] out_certs)
    as (Hslots & Hev & _ & Hp). cbn zeta in Hp.
  assert (Hevs : Forall (fun ev => ev = EvHashCerts)
                   (p_events (ParseEntries (SerializeCertEntries entries)
                                cached_certs [] out_certs)))
    by (destruct Hev as [-> | ->]; repeat constructor).
  destruct (DecompressChain_cases (SerializeCertEntries entries) cached_certs out_certs)
    as [[Hok Hr] | (Hok & inflated & evs & Hblock & Hevr & Hres)];
    cbn zeta in *; rewrite Hok in Hp.
  - rewrite Hr. cbn [ok certs_out events]. destruct Hp as [Hm _].
    rewrite <- (app_nil_r (SerializeCertEntries entries)) in Hm.
    apply serialized_malformed in Hm; [|exact Hrange].
    destruct Hm as (h & Hin & Hno).
    split; [|split; [discriminate|exact Hevs]].
    split; [discriminate|]. intros Hall. exfalso. apply Hno.
    rewrite List.Forall_forall in Hall. apply (Hall _ Hin).
  - destruct Hp as [Hp _].
    pose proof (parsed_readable _ _ _ _ _ Hp) as Hread.
    pose proof (parsed_serialize _ _ _ _ _ Hp) as [Heq Hrange'].
    rewrite <- (app_nil_r (SerializeCertEntries entries)) in Heq at 1.
    apply SerializeCertEntries_app_inj in Heq; [|assumption|assumption].
    destruct Heq as [He Hin]. rewrite <- He in *. rewrite <- Hin in *.
    change (negb (size (@nil byte) =? 0)) with false in Hblock.
    injection Hblock as <- <-.
    destruct Hres as (filled & rest & Hfill & Hokr).
    rewrite fill_certs_nil in Hfill. injection Hfill as <- <- Hc.
    rewrite Hokr, Hevr, app_nil_r, <- Hc.
    change (size (@nil byte) =? 0) with true. rewrite andb_true_r.
    split; [|split; [intros _; exact Hslots|exact Hevs]].
    rewrite forallb_forall, List.Forall_forall. rewrite List.Forall_forall in Hread.
    split.
    + intros H e Hin'. split; [|now apply Hread].
      specialize (H e Hin'). now destruct (is_compressed e).
    + intros H e Hin'. destruct (H e Hin') as [-> _]. reflexivity.
Qed.

End DecodeCached.

Lemma DecompressChain_entries_only_witness :
  let r := DecompressChain (zlib := StoredZlib.impl)
             (SerializeCertEntries [COMPRESSED]) [CERT_A] [] in
  (ok r = true <->
   Forall (fun e => is_compressed e = false /\ readable [CERT_A] e) [COMPRESSED]) /\
  (ok r = true -> Forall2 (slot_of [CERT_A]) [COMPRESSED] (certs_out r)) /\
  Forall (fun ev => ev = EvHashCerts) (events r).
Proof.
  apply (DecompressChain_entries_only (zlib := StoredZlib.impl) [COMPRESSED] [CERT_A] []).
  repeat constructor.
Defined.

(** ** What a successful decode can return *)

Lemma payload_of_compressed_bound (entries : list CertEntry) (certs : list bytes)
    (i : nat) (cert : bytes) :
  entries !! i = Some COMPRESSED -> certs !! i = Some cert ->
  4 + size cert <= size (payload_of entries certs).
Proof.
  revert certs i. induction entries as [|e entries IH]; intros [|c certs] [|i] He Hc;
    try discriminate.
  - cbn in He, Hc. injection He as ->. injection Hc as ->.
    cbn [payload_of]. rewrite !size_app, size_store_uint32.
    pose proof (size_nonneg (payload_of entries certs)). lia.
  - cbn in He, Hc. specialize (IH certs i He Hc).
    destruct e; cbn [payload_of]; [|exact IH].
    rewrite !size_app, size_store_uint32. pose proof (size_nonneg c). lia.
Qed.

Section DecodeBounds.

Context {zlib : Zlib}.

Lemma DecompressChain_payload (in_ : bytes) (cached_certs out_certs : list bytes) :
  ok (DecompressChain in_ cached_certs out_certs) = true ->
  size (payload_of (p_entries (ParseEntries in_ cached_certs [] out_certs))
          (certs_out (DecompressChain in_ cached_certs out_certs)))
  <= 128 * 1024.
Proof.
  intros Hok.
  destruct (DecompressChain_cases in_ cached_certs out_certs)
    as [[_ Hr] | (Hpok & inflated & evs & Hblock & _ & Hres)]; cbn zeta in *.
  - rewrite Hr in Hok. discriminate.
  - destruct inflated as [uncompressed|]; [|destruct Hres as [Hf _]; congruence].
    destruct Hres as (filled & rest & Hfill & Hokr).
    rewrite Hok in Hokr. symmetry in Hokr. apply andb_true_iff in Hokr.
    destruct Hokr as [-> Hrest]. apply Z.eqb_eq, size_nil_iff in Hrest. subst rest.
    apply fill_certs_spec in Hfill. destruct Hfill as (_ & _ & _ & Hpay).
    specialize (Hpay eq_refl (ParseEntries_length _ _ _ _)).
    rewrite app_nil_r, drop_0 in Hpay. rewrite <- Hpay.
    destruct (negb (size (p_in (ParseEntries in_ cached_certs [] out_certs)) =? 0)).
    + apply inflate_block_Some in Hblock.
      destruct Hblock as (_ & Hle & z & evs' & _ & _ & _ & _ & Hsz & _).
      rewrite Hsz. exact Hle.
    + injection Hblock as <- _. unfold size. cbn [length]. lia.
Qed.

(** X9. What a successful decode can return.  Whenever [DecompressChain]
    succeeds, the certificates it returns for the [COMPRESSED] entries, each
    counted with 4 bytes for its length, add up to at most 128 KiB; so no
    such certificate is longer than 128 KiB less 4 bytes, whatever the frame
    and whatever zlib does. *)
Theorem DecompressChain_output_bounded (in_ : bytes) (cached_certs out_certs : list bytes) :
  ok (DecompressChain in_ cached_certs out_certs) = true ->
  let p := ParseEntries in_ cached_certs [] out_certs in
  let r := DecompressChain in_ cached_certs out_certs in
  size (payload_of (p_entries p) (certs_out r)) <= 128 * 1024 /\
  forall (i : nat) (cert : bytes),
    p_entries p !! i = Some COMPRESSED -> certs_out r !! i = Some cert ->
    size cert <= 128 * 1024 - 4.
Proof.
  intros Hok. cbn zeta. pose proof (DecompressChain_payload _ _ _ Hok) as Hpay.
  split; [exact Hpay|]. intros i cert He Hc.
  pose proof (payload_of_compressed_bound _ _ _ _ He Hc). lia.
Qed.

End DecodeBounds.

Lemma DecompressChain_output_bounded_witness :
  let p := ParseEntries example_frame [CERT_A] [] [] in
  let r := DecompressChain (zlib := StoredZlib.impl) example_frame [CERT_A] [] in
  size (payload_of (p_entries p) (certs_out r)) <= 128 * 1024 /\
  forall (i : nat) (cert : bytes),
    p_entries p !! i = Some COMPRESSED -> certs_out r !! i = Some cert ->
    size cert <= 128 * 1024 - 4.
Proof.
  apply (DecompressChain_output_bounded (zlib := StoredZlib.impl) example_frame [CERT_A] []).
  vm_compute. reflexivity.
Defined.

(** ** A larger local cache *)

Lemma first_with_hash_app (cached_certs extra : list bytes) (hash : Z) (k : nat)
    (cert : bytes) :
  first_with_hash cached_certs hash k cert ->
  first_with_hash (cached_certs ++ extra) hash k cert.
Proof.
  intros (Hk & Hh & Hfirst).
  assert (Hlt : (k < length cached_certs)%nat) by (eapply lookup_lt_Some, Hk).
  split; [|split; [exact Hh|]].
  - rewrite lookup_app_l by exact Hlt. exact Hk.
  - intros j c Hj Hc. rewrite lookup_app_l in Hc by lia. eapply Hfirst; eassumption.
Qed.

Lemma parsed_app (cached_certs extra : list bytes) (in_ : bytes)
    (entries : list CertEntry) (certs : list bytes) (rest : bytes) :
  parsed cached_certs in_ entries certs rest ->
  parsed (cached_certs ++ extra) in_ entries certs rest.
Proof.
  induction 1 as [b rest Hb|b in_ es cs rest Hb Hp IH
                 |b in_ k cert es cs rest Hb Hlen Hf Hp IH].
  - now constructor.
  - now constructor.
  - econstructor; eauto using first_with_hash_app.
Qed.

Lemma ParseResult_eta (r : ParseResult) :
  r = mkParseResult (p_ok r) (p_in r) (p_entries r) (p_certs r) (p_events r).
Proof. now destruct r. Qed.

Lemma ParseEntries_cache_extension (in_ : bytes) (cached_certs extra : list bytes)
    (out_entries : list CertEntry) (out_certs : list bytes) :
  p_ok (ParseEntries in_ cached_certs out_entries out_certs) = true ->
  ParseEntries in_ (cached_certs ++ extra) out_entries out_certs
  = ParseEntries in_ cached_certs out_entries out_certs.
Proof.
  intros Hok.
  pose proof (ParseEntries_spec in_ cached_certs out_entries out_certs)
    as (_ & _ & _ & Hp). cbn zeta in Hp. rewrite Hok in Hp. destruct Hp as [Hp Hev].
  pose proof (parsed_readable _ _ _ _ _ Hp) as Hread.
  pose proof (parsed_app _ extra _ _ _ _ Hp) as Hp'.
  destruct (ParseEntries_parsed _ _ out_entries _ out_certs _ _ Hp')
    as (Hok' & Hin' & He' & Hc').
  pose proof (ParseEntries_spec in_ (cached_certs ++ extra) out_entries out_certs)
    as (_ & _ & _ & Hq). cbn zeta in Hq. rewrite Hok' in Hq. destruct Hq as [_ Hev'].
  rewrite (ParseResult_eta (ParseEntries in_ (cached_certs ++ extra) _ _)).
  rewrite (ParseResult_eta (ParseEntries in_ cached_certs _ _)).
  rewrite Hok, Hok', Hin', He', Hc', Hev, Hev'. rewrite He'. f_equal.
  destruct (forallb is_compressed
              (p_entries (ParseEntries in_ cached_certs out_entries out_certs)))
    eqn:Hall; [reflexivity|]. cbn [orb].
  assert (Hne : cached_certs <> []).
  { intros ->. apply not_true_iff_false in Hall. apply Hall.
    apply forallb_forall. intros e Hin. rewrite List.Forall_forall in Hread.
    specialize (Hread e Hin). destruct e as [|h]; [reflexivity|].
    destruct Hread as (_ & c & [] & _). }
  replace (0 =? size cached_certs) with false.
  - replace (0 =? size (cached_certs ++ extra)) with false; [reflexivity|].
    symmetry. apply Z.eqb_neq. intros H0. symmetry in H0. apply size_nil_iff in H0.
    apply app_eq_nil in H0. now destruct H0.
  - symmetry. apply Z.eqb_neq. intros H0. symmetry in H0. now apply size_nil_iff in H0.
Qed.

Section DecodeCache.

Context {zlib : Zlib}.

(** X10. A larger local cache.  When the entry list of a frame is read
    successfully against a local cache, certificates added at the end of
    that cache change nothing: [DecompressChain] returns the same value and
    the same certificates and does the same work, since the first
    certificate with the hash of an entry is still the first. *)
Theorem DecompressChain_cache_extension (in_ : bytes)
    (cached_certs extra out_certs : list bytes) :
  p_ok (ParseEntries in_ cached_certs [] out_certs) = true ->
  DecompressChain in_ (cached_certs ++ extra) out_certs
  = DecompressChain in_ cached_certs out_certs.
Proof.
  intros Hok. unfold DecompressChain.
  now rewrite (ParseEntries_cache_extension _ _ extra _ _ Hok).
Qed.

End DecodeCache.

Lemma DecompressChain_cache_extension_witness :
  DecompressChain (zlib := StoredZlib.impl) example_frame ([CERT_A] ++ [CERT_B; colliding_a]) []
  = DecompressChain (zlib := StoredZlib.impl) example_frame [CERT_A] [].
Proof.
  apply (DecompressChain_cache_extension (zlib := StoredZlib.impl)).
  vm_compute. reflexivity.
Defined.

(** ** The zlib calls of a decode call *)

Section DecodeCalls.

Context {zlib : Zlib}.

Lemma run_inflate_calls (in_ : bytes) (uncompressed_size : Z)
    (entries : list CertEntry) (out_certs : list bytes) :
  zlib_calls (snd (run_inflate in_ uncompressed_size entries out_certs)).
Proof.
  unfold run_inflate, zlib_calls.
  destruct inflateInit as [rv s].
  destruct (negb (rv =? Z_OK)); [now left|].
  destruct (call_inflate _ Z_FINISH) as [rv1 z1].
  destruct (rv1 =? Z_NEED_DICT); [|right; now left].
  destruct (inflateSetDictionary _ _) as [rv2 s2].
  destruct (negb (rv2 =? Z_OK)); [right; right; now left|].
  destruct (call_inflate _ Z_FINISH) as [rv3 z3]. right; right; now right.
Qed.

Lemma inflate_block_calls (in_ : bytes) (entries : list CertEntry)
    (out_certs : list bytes) :
  snd (inflate_block in_ entries out_certs) = [] \/
  exists (n : Z) (calls : list Event),
    snd (inflate_block in_ entries out_certs) = EvAlloc n :: calls /\
    n = load_uint32 in_ /\ 0 <= n <= 128 * 1024 /\ zlib_calls calls.
Proof.
  unfold inflate_block.
  destruct (size in_ <? 4); [now left|].
  destruct (Z.ltb_spec (128 * 1024) (load_uint32 in_)) as [Hgt|Hle]; [now left|].
  right. pose proof (load_uint32_range in_) as Hr.
  pose proof (run_inflate_calls (drop 4 in_) (load_uint32 in_) entries out_certs) as Hc.
  destruct (run_inflate _ _ _ _) as [[[rv z]|] evs]; cbn [snd] in Hc.
  - exists (load_uint32 in_), evs.
    destruct (negb (rv =? Z_STREAM_END) || negb (avail_out z =? 0)
              || negb (avail_in z =? 0)); cbn [snd];
      (split; [reflexivity|split; [reflexivity|split; [lia|exact Hc]]]).
  - exists (load_uint32 in_), evs. cbn [snd].
    split; [reflexivity|split; [reflexivity|split; [lia|exact Hc]]].
Qed.

(** X11. The zlib calls of a decode call.  Whatever the input and whatever
    zlib answers, [DecompressChain] calls [HashCerts] on the local cache at
    most once, and then either makes no zlib call at all or allocates the
    buffer [uncompressed_data] that [inflate] writes to, once and of at most
    128 KiB, and calls [inflateInit] once, [inflate] at most twice and
    [inflateSetDictionary] at most once, between the two.  (The strings the
    call builds besides, the dictionary and the certificates of the output
    list, are no events of the model and are not bounded by this.) *)
Theorem DecompressChain_zlib_calls (in_ : bytes) (cached_certs out_certs : list bytes) :
  exists hashing block : list Event,
    events (DecompressChain in_ cached_certs out_certs) = hashing ++ block /\
    (hashing = [] \/ hashing = [EvHashCerts]) /\
    (block = [] \/
     exists (n : Z) (calls : list Event),
       block = EvAlloc n :: calls /\ 0 <= n <= 128 * 1024 /\ zlib_calls calls).
Proof.
  pose proof (ParseEntries_spec in_ cached_certs [] out_certs) as (_ & Hev & _).
  cbn zeta in Hev.
  destruct (DecompressChain_cases in_ cached_certs out_certs)
    as [[_ Hr] | (_ & inflated & evs & Hblock & Hevr & _)]; cbn zeta in *.
  - exists (p_events (ParseEntries in_ cached_certs [] out_certs)), [].
    rewrite Hr, app_nil_r. cbn [events]. auto.
  - exists (p_events (ParseEntries in_ cached_certs [] out_certs)), evs.
    split; [exact Hevr|split; [exact Hev|]].
    destruct (negb (size (p_in (ParseEntries in_ cached_certs [] out_certs)) =? 0)).
    + pose proof (inflate_block_calls
                    (p_in (ParseEntries in_ cached_certs [] out_certs))
                    (p_entries (ParseEntries in_ cached_certs [] out_certs))
                    (p_certs (ParseEntries in_ cached_certs [] out_certs))) as Hc.
      rewrite Hblock in Hc. cbn [snd] in Hc.
      destruct Hc as [Hc|(n & calls & Hc & _ & Hn & Hz)]; [now left|].
      right. exists n, calls. auto.
    + injection Hblock as _ <-. now left.
Qed.

End DecodeCalls.

(** ** The frame of the encoder *)

Section EncodeFrame.

Context {zlib : Zlib}.

Lemma call_deflate_fits (z z' : z_stream deflate_state) (flush rv : Z) :
  deflate_fits -> 0 <= avail_out z ->
  call_deflate z flush = (rv, z') ->
  exists produced : bytes,
    written z' = written z ++ produced /\
    avail_out z' = avail_out z - size produced /\
    0 <= avail_out z'.
Proof.
  intros Hfits H0. unfold call_deflate, z_advance.
  pose proof (Hfits (state z) (take (Z.to_nat (avail_in z)) (next_in z))
                (avail_out z) flush H0) as Hle.
  destruct (deflate _ _ _ _) as [[[rv0 consumed] produced] s].
  cbn [fst snd] in Hle. intros H. injection H as _ <-.
  exists produced. cbn [written avail_out]. repeat split; lia.
Qed.

Lemma deflate_input_fits (z z' : z_stream deflate_state) (data : bytes) (n : Z) :
  deflate_fits -> 0 <= avail_out z ->
  deflate_input z data n = Some z' ->
  exists produced : bytes,
    written z' = written z ++ produced /\
    avail_out z' = avail_out z - size produced /\
    0 <= avail_out z'.
Proof.
  intros Hfits H0. unfold deflate_input.
  destruct (call_deflate _ Z_NO_FLUSH) as [rv z1] eqn:Hc.
  apply call_deflate_fits in Hc; [|exact Hfits|exact H0].
  cbn [written avail_out] in Hc.
  destruct (negb (rv =? Z_OK) || negb (avail_in z1 =? 0)); [discriminate|].
  intros H. injection H as <-. exact Hc.
Qed.

Lemma deflate_certs_fits (entries : list CertEntry) (i : nat) (certs : list bytes)
    (z z' : z_stream deflate_state) :
  deflate_fits -> 0 <= avail_out z ->
  deflate_certs entries i certs z = Some z' ->
  exists produced : bytes,
    written z' = written z ++ produced /\
    avail_out z' = avail_out z - size produced /\
    0 <= avail_out z'.
Proof.
  intros Hfits. revert i z.
  induction certs as [|cert certs IH]; intros i z H0 Hd; cbn [deflate_certs] in Hd.
  - injection Hd as <-. exists []. rewrite app_nil_r. change (size []) with 0.
    repeat split; lia.
  - destruct (negb (is_compressed (entries !!! i))); [now apply (IH (S i))|].
    destruct (deflate_input z _ 4) as [z1|] eqn:H1; [|discriminate].
    cbn [mbind option_bind] in Hd.
    destruct (deflate_input z1 cert _) as [z2|] eqn:H2; [|discriminate].
    cbn [mbind option_bind] in Hd.
    apply deflate_input_fits in H1; [|exact Hfits|exact H0].
    destruct H1 as (p1 & Hw1 & Ha1 & H01).
    apply deflate_input_fits in H2; [|exact Hfits|exact H01].
    destruct H2 as (p2 & Hw2 & Ha2 & H02).
    apply IH in Hd; [|exact H02]. destruct Hd as (p3 & Hw3 & Ha3 & H03).
    exists (p1 ++ p2 ++ p3). rewrite Hw3, Hw2, Hw1, Ha3, Ha2, Ha1, !size_app.
    rewrite <- !app_assoc. repeat split; lia.
Qed.

Lemma CompressChain_layout (certs : list bytes) (hashes : bytes) :
  deflate_fits ->
  sizeof_CertEntry * size certs < 2 ^ 64 ->
  size (payload_of (MatchCerts certs hashes) certs) < 2 ^ 64 ->
  (forall s : deflate_state,
     0 <= deflateBound s (size (payload_of (MatchCerts certs hashes) certs)) < 2 ^ 32) ->
  let entries := MatchCerts certs hashes in
  CompressChain certs hashes = [] \/
  exists tail : bytes,
    CompressChain certs hashes = SerializeCertEntries entries ++ tail /\
    ((payload_of entries certs = [] /\ tail = []) \/
     (payload_of entries certs <> [] /\
      exists stream : bytes,
        tail = store_uint32 (to_uint32 (size (payload_of entries certs))) ++ stream)).
Proof.
  intros Hfits Hfit Hpay Hbound. cbn zeta.
  set (entries := MatchCerts certs hashes) in *.
  pose proof (size_nonneg (payload_of entries certs)) as Hp0.
  pose proof (size_nonneg certs) as Hc0.
  assert (Hlen : length entries = length certs) by apply MatchCerts_length.
  assert (Hsz : size entries = size certs) by (unfold size; now rewrite Hlen).
  assert (Hu : uncompressed_size_loop entries 0 certs 0 = size (payload_of entries certs)).
  { rewrite uncompressed_size_loop_spec by (cbn; lia).
    rewrite drop_0, Z.add_0_l. apply Z.mod_small. lia. }
  assert (Hes : CertEntriesSize entries = size (SerializeCertEntries entries)).
  { rewrite CertEntriesSize_wraps, SerializeCertEntries_size.
    pose proof (serialized_size_bounds entries) as Hb. rewrite Hsz in Hb.
    unfold sizeof_CertEntry in Hfit. apply Z.mod_small. lia. }
  assert (Hser : size (SerializeCertEntries entries) <= 9 * size certs + 1).
  { rewrite SerializeCertEntries_size.
    pose proof (serialized_size_bounds entries) as Hb. rewrite Hsz in Hb. lia. }
  unfold CompressChain. fold entries. cbv zeta. rewrite Hu, Hes.
  destruct (Z.eqb_spec (size (payload_of entries certs)) 0) as [Hzero|Hpos].
  - right. exists []. rewrite app_nil_r. split.
    + rewrite resize_nil. apply write_at_whole. unfold size. now rewrite Nat2Z.id.
    + left. split; [now apply size_nil_iff|reflexivity].
  - destruct (deflateInit Z_DEFAULT_COMPRESSION) as [rv0 s0].
    destruct (negb (rv0 =? Z_OK)); [now left|].
    destruct (deflateSetDictionary s0 _) as [rv1 s1].
    destruct (negb (rv1 =? Z_OK)); [now left|].
    specialize (Hbound s1).
    set (compressed_size := deflateBound s1 (size (payload_of entries certs))) in *.
    assert (Hb32 : to_uint32 compressed_size = compressed_size)
      by (apply Z.mod_small; lia).
    rewrite Hb32.
    destruct (deflate_certs entries 0 certs _) as [z|] eqn:Hd; [|now left].
    apply deflate_certs_fits in Hd; [|exact Hfits|cbn [avail_out]; lia].
    cbn [written avail_out app] in Hd. destruct Hd as (p1 & Hw1 & Ha1 & H01).
    destruct (call_deflate _ Z_FINISH) as [rv2 z2] eqn:Hc.
    apply call_deflate_fits in Hc; [|exact Hfits|cbn [avail_out]; exact H01].
    cbn [written avail_out] in Hc. destruct Hc as (p2 & Hw2 & Ha2 & H02).
    destruct (negb (rv2 =? Z_STREAM_END)); [now left|].
    right. exists (store_uint32 (to_uint32 (size (payload_of entries certs))) ++ written z2).
    split.
    + apply frame_layout; [apply size_store_uint32| |exact H02|].
      * rewrite Hw2, Ha2, Hw1, Ha1, size_app. lia.
      * unfold sizeof_CertEntry in Hfit. lia.
    + right. split; [|now exists (written z2)].
      intros Hnil. apply Hpos. now rewrite Hnil.
Qed.



Lemma MatchCerts_readable (certs : list bytes) (hashes : bytes)
    (cached_certs : list bytes) :
  (forall cert : bytes, In cert certs -> advertised hashes (FNV1a_64_Hash cert) ->
     resolves cached_certs (FNV1a_64_Hash cert)) ->
  Forall (readable cached_certs) (MatchCerts certs hashes).
Proof.
  intros Hres. unfold MatchCerts. rewrite MatchCerts_loop_map. cbn [app].
  apply List.Forall_forall. intros e He. apply in_map_iff in He.
  destruct He as (cert & <- & Hin). unfold match_cert.
  destruct ((size hashes mod 8 =? 0) && negb (size hashes =? 0)); [|exact I].
  destruct (hash_scan (length hashes) _ hashes 0) eqn:Hscan; [|exact I].
  split; [apply FNV1a_64_Hash_range|].
  apply Hres; [exact Hin|]. now apply hash_scan_advertised.
Qed.

(** X14. The decoder reads the entries of the encoder.  Let [deflate] store
    no more than the room it is given, [deflateBound] answer a 32-bit value,
    the entries and the payload fit the address space, [CompressChain]
    return a frame, not the empty string, and the local cache of the decoder
    hold, for every certificate of the chain whose hash is advertised, a
    certificate with that hash.  Then [ParseEntries] succeeds on the frame
    and returns the entries of [MatchCerts], one slot per certificate of the
    chain, whatever [deflate] has stored behind them. *)
Theorem ParseEntries_of_CompressChain (certs : list bytes) (hashes : bytes)
    (cached_certs : list bytes) (out_entries : list CertEntry) (out_certs : list bytes) :
  deflate_fits ->
  sizeof_CertEntry * size certs < 2 ^ 64 ->
  size (payload_of (MatchCerts certs hashes) certs) < 2 ^ 64 ->
  (forall s : deflate_state,
     0 <= deflateBound s (size (payload_of (MatchCerts certs hashes) certs)) < 2 ^ 32) ->
  CompressChain certs hashes <> [] ->
  (forall cert : bytes, In cert certs -> advertised hashes (FNV1a_64_Hash cert) ->
     resolves cached_certs (FNV1a_64_Hash cert)) ->
  let r := ParseEntries (CompressChain certs hashes) cached_certs out_entries out_certs in
  p_ok r = true /\ p_entries r = MatchCerts certs hashes /\
  length (p_certs r) = length certs.
Proof.
  intros Hfits Hfit Hpay Hbound Hne Hres. cbn zeta.
  destruct (CompressChain_layout certs hashes Hfits Hfit Hpay Hbound)
    as [Hnil|(tail & Hframe & _)]; [contradiction|].
  rewrite Hframe.
  destruct (serialized_parsed cached_certs (MatchCerts certs hashes) tail
              (MatchCerts_readable _ _ _ Hres)) as [slots Hp].
  destruct (ParseEntries_parsed _ _ out_entries _ out_certs _ _ Hp)
    as (Hok & _ & He & _).
  rewrite Hok, He. repeat split.
  now rewrite ParseEntries_length, He, MatchCerts_length.
Qed.

End EncodeFrame.

Lemma StoredZlib_deflate_fits : deflate_fits (zlib := StoredZlib.impl).
Proof.
  intros s input avail flush H0. cbn [deflate StoredZlib.impl].
  unfold StoredZlib.stored_deflate.
  assert (Hnil : size (@nil byte) <= avail) by (unfold size; cbn [length]; lia).
  destruct (avail <=? 0); [exact Hnil|].
  destruct (flush =? Z_FINISH).
  - destruct (Z.leb_spec (size (StoredZlib.header (StoredZlib.d_dict s)
                                 ++ store_uint32 (size (StoredZlib.d_buffered s ++ input))
                                 ++ StoredZlib.d_buffered s ++ input)) avail);
      [assumption|exact Hnil].
  - destruct (size input =? 0); exact Hnil.
Qed.


Lemma ParseEntries_of_CompressChain_witness :
  let r := ParseEntries
             (CompressChain (zlib := StoredZlib.impl) [CERT_A; CERT_B] (hashes_of [CERT_A]))
             [CERT_B; CERT_A] [] [] in
  p_ok r = true /\
  p_entries r = MatchCerts [CERT_A; CERT_B] (hashes_of [CERT_A]) /\
  length (p_certs r) = length [CERT_A; CERT_B].
Proof.
  apply (ParseEntries_of_CompressChain (zlib := StoredZlib.impl)).
  - exact StoredZlib_deflate_fits.
  - vm_compute. reflexivity.
  - vm_compute. reflexivity.
  - intros s. vm_compute. split; [discriminate|reflexivity].
  - vm_compute. discriminate.
  - intros cert Hin Hadv. apply advertised_hashes_of in Hadv.
    destruct Hadv as (c & [<-|[]] & Hh). rewrite <- Hh.
    exists CERT_A. split; [right; now left|reflexivity].
Defined.

(** ** [ScopedZLib] *)

Lemma resets_calls (s : ScopedZLib) (zs : list (option nat)) :
  snd (resets s zs) ++ ScopedZLib_delete (fst (resets s zs))
  = map (end_call (type_ s)) (omap id (z_ s :: zs)) /\
  type_ (fst (resets s zs)) = type_ s.
Proof.
  revert s. induction zs as [|z zs IH]; intros [[z0|] type].
  - cbn. destruct type; auto.
  - cbn. auto.
  - specialize (IH (mkScopedZLib z type)). cbn [resets reset Clear z_ type_].
    destruct (resets (mkScopedZLib z type) zs) as [s' calls'].
    cbn [fst snd type_ z_] in *. destruct IH as [IH ->]. split; [|reflexivity].
    rewrite <- app_assoc, IH. cbn [omap id option_bind map app end_call].
    destruct type; reflexivity.
  - specialize (IH (mkScopedZLib z type)). cbn [resets reset Clear z_ type_].
    destruct (resets (mkScopedZLib z type) zs) as [s' calls'].
    cbn [fst snd type_ z_] in *. destruct IH as [IH ->]. split; [|reflexivity].
    cbn [app]. rewrite IH. reflexivity.
Qed.

(** X13. The contexts a [ScopedZLib] ends.  Over the life of an object
    (constructed, [reset] called any number of times with a context or with
    [nullptr], destroyed) every context handed to [reset] is ended exactly
    once, in the order of the calls, with [deflateEnd] for an object of type
    [DEFLATE] and [inflateEnd] for one of type [INFLATE]; nothing else is
    ended, and an object that was never given a context ends none. *)
Theorem ScopedZLib_ends_each_context_once (type : ScopedZLib_Type)
    (zs : list (option nat)) :
  snd (resets (ScopedZLib_new type) zs)
  ++ ScopedZLib_delete (fst (resets (ScopedZLib_new type) zs))
  = map (end_call type) (omap id zs).
Proof.
  destruct (resets_calls (ScopedZLib_new type) zs) as [H _]. exact H.
Qed.

(** ** What a malformed entry list leaves *)

Lemma ParseEntries_loop_broken (fuel : nat) (cached_certs : list bytes)
    (in_0 in_ : bytes) (cached_hashes : list Z) (out_entries : list CertEntry)
    (out_certs : list bytes) (events : list Event) :
  memo_ok cached_certs cached_hashes ->
  (length in_ < fuel)%nat ->
  let r := ParseEntries_loop fuel cached_certs in_0 in_ cached_hashes
             out_entries out_certs events in
  p_ok r = false ->
  exists (entries : list CertEntry) (certs : list bytes),
    p_entries r = out_entries ++ entries /\
    p_certs r = out_certs ++ certs /\
    broken_at cached_certs in_ entries certs.
Proof.
  revert in_ cached_hashes out_entries out_certs events.
  induction fuel as [|fuel IH]; intros in_ cached_hashes out_entries out_certs events
    Hmemo Hfuel; [lia|].
  cbn [ParseEntries_loop].
  destruct in_ as [|b in_].
  { intros _. exists [], []. cbn. rewrite !app_nil_r. repeat split. constructor. }
  cbn [length] in Hfuel.
  destruct (Z.eqb_spec (byte.unsigned b) 0) as [Hb0|Hb0]; [discriminate|].
  destruct (Z.eqb_spec (byte.unsigned b) 1) as [Hb1|Hb1].
  { intros Hfail.
    destruct (IH in_ cached_hashes (out_entries ++ [COMPRESSED]) (out_certs ++ [[]])
                events Hmemo ltac:(lia) Hfail) as (es & cs & He & Hc & Hbr).
    exists (COMPRESSED :: es), ([] :: cs).
    rewrite He, Hc, <- !app_assoc. repeat split. now constructor. }
  destruct (Z.eqb_spec (byte.unsigned b) 2) as [Hb2|Hb2].
  2:{ intros _. exists [], []. cbn. rewrite !app_nil_r. repeat split.
      now apply broken_type_byte. }
  destruct (Z.ltb_spec (size in_) 8) as [Hshort|Hlong].
  { intros _. exists [], []. cbn. rewrite !app_nil_r. repeat split.
    now apply broken_short_hash. }
  cbn zeta. rewrite (memo_effective _ _ Hmemo).
  destruct (find_hash (load_uint64 in_ 0) (HashCerts cached_certs) 0) as [k|] eqn:Hfind.
  2:{ intros _. exists [], []. cbn. rewrite !app_nil_r. repeat split.
      apply broken_hash_miss; auto. eapply find_hash_None, Hfind. }
  destruct (find_hash_Some _ _ _ _ Hfind) as (k' & cert & -> & Hfirst).
  cbn [Nat.add].
  rewrite (list_lookup_total_correct _ _ _ (proj1 Hfirst)).
  assert (Hdrop : (length (drop 8 in_) < fuel)%nat) by (rewrite length_drop; lia).
  intros Hfail.
  destruct (IH (drop 8 in_) (HashCerts cached_certs)
              (out_entries ++ [CACHED (load_uint64 in_ 0)]) (out_certs ++ [cert])
              _ (or_intror eq_refl) Hdrop Hfail)
    as (es & cs & He & Hc & Hbr).
  exists (CACHED (load_uint64 in_ 0) :: es), (cert :: cs).
  rewrite He, Hc, <- !app_assoc. repeat split. econstructor; eauto.
Qed.

Lemma ParseEntries_broken (in_ : bytes) (cached_certs : list bytes)
    (out_entries : list CertEntry) (out_certs : list bytes) :
  p_ok (ParseEntries in_ cached_certs out_entries out_certs) = false ->
  broken_at cached_certs in_
    (p_entries (ParseEntries in_ cached_certs out_entries out_certs))
    (p_certs (ParseEntries in_ cached_certs out_entries out_certs)).
Proof.
  unfold ParseEntries. intros Hfail.
  destruct (ParseEntries_loop_broken (S (length in_)) cached_certs in_ in_ [] [] [] []
              (or_introl eq_refl) ltac:(lia) Hfail) as (es & cs & He & Hc & Hbr).
  cbn [app] in He, Hc. now rewrite He, Hc.
Qed.

(** C4, as the source has it.  The entry list is malformed exactly when
    [ParseEntries] returns false: when the input ends before an end marker,
    a type byte is none of 0, 1, 2, fewer than 8 bytes follow a type byte 2,
    or the hash of a cached entry is the hash of no certificate of the local
    cache.  [DecompressChain] then returns false, having allocated no buffer
    and called no zlib function; but the output list is not without a
    partial result: it holds the slot of every entry read before the
    defect, empty for a [COMPRESSED] entry and holding the certificate of
    the local cache for a [CACHED] one. *)
Theorem malformed_entry_list_rejected `{zlib : Zlib} (in_ : bytes)
    (cached_certs out_certs : list bytes) :
  (malformed cached_certs in_
   <-> p_ok (ParseEntries in_ cached_certs [] out_certs) = false) /\
  (malformed cached_certs in_ ->
   ok (DecompressChain in_ cached_certs out_certs) = false /\
   Forall (fun ev => ev = EvHashCerts)
     (events (DecompressChain in_ cached_certs out_certs)) /\
   exists entries : list CertEntry,
     broken_at cached_certs in_ entries
       (certs_out (DecompressChain in_ cached_certs out_certs))).
Proof.
  split.
  - symmetry. apply ParseEntries_ok_iff.
  - intros Hm.
    apply ParseEntries_ok_iff with (out_entries := []) (out_certs := out_certs) in Hm.
    rewrite (DecompressChain_parse_failure _ _ _ Hm). cbn [ok events certs_out].
    split; [reflexivity|]. split.
    + destruct (ParseEntries_spec in_ cached_certs [] out_certs) as (_ & [->| ->] & _);
        repeat constructor.
    + eexists. apply ParseEntries_broken. exact Hm.
Qed.

Lemma malformed_entry_list_rejected_witness :
  ok (@DecompressChain StoredZlib.impl
        (byte.of_Z 1 :: byte.of_Z 2 :: store_uint64 5 ++ [byte.of_Z 0]) [CERT_A] [])
  = false /\
  Forall (fun ev => ev = EvHashCerts)
    (events (@DecompressChain StoredZlib.impl
               (byte.of_Z 1 :: byte.of_Z 2 :: store_uint64 5 ++ [byte.of_Z 0])
               [CERT_A] [])) /\
  exists entries : list CertEntry,
    broken_at [CERT_A] (byte.of_Z 1 :: byte.of_Z 2 :: store_uint64 5 ++ [byte.of_Z 0])
      entries
      (certs_out (@DecompressChain StoredZlib.impl
                    (byte.of_Z 1 :: byte.of_Z 2 :: store_uint64 5 ++ [byte.of_Z 0])
                    [CERT_A] [])).
Proof.
  apply (proj2 (@malformed_entry_list_rejected StoredZlib.impl
                  (byte.of_Z 1 :: byte.of_Z 2 :: store_uint64 5 ++ [byte.of_Z 0])
                  [CERT_A] [])).
  apply malformed_after_compressed; [reflexivity|].
  apply malformed_hash_miss; [reflexivity|vm_compute; discriminate|].
  intros (cert & [<-|[]] & H). vm_compute in H. discriminate.
Defined.

(** C4, refuted as stated.  The entry list of [unterminated_frame] ends
    without its end marker, after an entry resolved against the local cache
    and a [COMPRESSED] entry.  [DecompressChain] returns false, and the
    caller, whose list was empty, finds in it the certificate [CERT_B] and
    an empty slot: a partial result. *)
Lemma malformed_entry_list_leaves_slots :
  malformed [CERT_B] unterminated_frame /\
  ok (@DecompressChain StoredZlib.impl unterminated_frame [CERT_B] []) = false /\
  certs_out (@DecompressChain StoredZlib.impl unterminated_frame [CERT_B] [])
  = [CERT_B; []].
Proof.
  split.
  - apply ParseEntries_ok_iff with (out_entries := []) (out_certs := []).
    vm_compute. reflexivity.
  - vm_compute. split; reflexivity.
Qed.

(** ** What the inflation consumes *)

Section Consumption.

Context {zlib : Zlib}.



End Consumption.


(** ** The round trip, with bytes after the frame *)

Section Padded.

Context {zlib : Zlib}.






End Padded.


(** Two certificates with one hash round-trip when the peer holds neither:
    both are sent compressed and no hash is looked up. *)
Lemma colliding_certificates_not_cached :
  cache_first [] [colliding_a; colliding_b] /\
  ok (@DecompressChain StoredZlib.impl
        (@CompressChain StoredZlib.impl [colliding_a; colliding_b] (hashes_of []))
        [] []) = true /\
  certs_out (@DecompressChain StoredZlib.impl
               (@CompressChain StoredZlib.impl [colliding_a; colliding_b] (hashes_of []))
               [] []) = [colliding_a; colliding_b].
Proof.
  split; [intros cert _ Hc; discriminate|].
  vm_compute. split; reflexivity.
Qed.

